(** * sutord: a shallow embedding of the game engine of [sutord.py]

    The development follows the classes of the program: [Dictionary]
    (normalisation and membership), [Answer] (letter scoring), [Player],
    [Game] (the session state machine) and [PlayerStats] / [GamesStats]
    (cumulative counters and their text records).

    Conventions.
    - A Python [str] is the list of its code points ([N]).
    - A [Counter] is a finite map to [Z]; reading a missing key gives 0.
    - A method that mutates [self] takes the object and returns the new one.
    - A call that may raise returns an [option]; [None] is the exception. *)

From Stdlib Require Import ZArith String Ascii DecimalString DecimalZ.
From stdpp Require Import base option list sorting gmap fin_maps.

Local Open Scope Z_scope.

(** ** Python strings *)

Abbreviation str := (list N).

(** The code points of an ASCII literal. *)
Fixpoint py (s : string) : str :=
  match s with
  | EmptyString => []
  | String a s' => N_of_ascii a :: py s'
  end.

(** ** [class LetterType(Enum)] *)

Inductive LetterType : Set := FOUND | EXIST | WRONG.

#[global] Instance LetterType_eq_dec : EqDecision LetterType.
Proof. solve_decision. Defined.

(** ** [collections.Counter] *)

Module Counter.

(** [counts[x]]: a missing key reads as zero and is not inserted. *)
Definition get `{Countable K} (c : gmap K Z) (x : K) : Z :=
  default 0 (c !! x).

(** [counts[x] += d] *)
Definition add `{Countable K} (x : K) (d : Z) (c : gmap K Z) : gmap K Z :=
  <[x := get c x + d]> c.

(** [Counter.update(iterable)]: one more for each element, in order. *)
Definition update `{Countable K} (c : gmap K Z) (l : list K) : gmap K Z :=
  foldl (fun acc x => add x 1 acc) c l.

(** [Counter(iterable)] *)
Definition of_list `{Countable K} (l : list K) : gmap K Z :=
  update ∅ l.

(** [sum(c.values())] *)
Definition total `{Countable K} (c : gmap K Z) : Z :=
  map_fold (λ _ v acc, v + acc) 0 c.

End Counter.

(** ** [class Answer] *)

Module Answer.

(** First loop of [check]: every exact match reserves one occurrence. *)
Fixpoint reserve (counts : gmap N Z) (pairs : list (N * N)) : gmap N Z :=
  match pairs with
  | [] => counts
  | (x, y) :: rest =>
      if decide (x = y) then reserve (Counter.add x (-1) counts) rest
      else reserve counts rest
  end.

(** Second loop of [check]: classify left to right, threading [counts]. *)
Fixpoint classify (hidden_word : str) (counts : gmap N Z)
    (pairs : list (N * N)) : list LetterType :=
  match pairs with
  | [] => []
  | (x, y) :: rest =>
      if decide (x = y) then
        FOUND :: classify hidden_word counts rest
      else if decide (x ∈ hidden_word ∧ Counter.get counts x > 0) then
        EXIST :: classify hidden_word (Counter.add x (-1) counts) rest
      else
        WRONG :: classify hidden_word counts rest
  end.

(** [Answer.check(word, hidden_word)]; [zip] stops at the shorter word. *)
Definition check (word hidden_word : str) : list LetterType :=
  let counts := Counter.of_list hidden_word in
  let counts := reserve counts (zip word hidden_word) in
  classify hidden_word counts (zip word hidden_word).

(** The object built by [Answer(word, hidden_word)]. *)
Record t : Set := Build { letters : str; types : list LetterType }.

Definition init (word hidden_word : str) : t :=
  {| letters := word; types := check word hidden_word |}.

(** [get_letters_found]: the letter where it was FOUND, else [None]. *)
Definition get_letters_found (a : t) : list (option N) :=
  (fun '(x, y) => if decide (y = FOUND) then Some x else None)
    <$> zip (letters a) (types a).

End Answer.

(** ** External libraries

    [unidecode] (third party) and the Unicode tables behind [str.isalpha]
    and [str.lower] are not part of the program: they are parameters. Their
    laws record what the program relies on: [unidecode] returns ASCII text
    and leaves ASCII text alone, and on ASCII the two [str] methods are the
    usual ones. *)

Class Unidecode := unidecode : str → str.

Class Unicode := {
  (** [str.isalpha] on a one-character string *)
  isalpha : N → bool;
  (** [str.lower] *)
  lower : str → str
}.

Definition is_ascii (c : N) : Prop := (c < 128)%N.

Definition ascii_isalpha (c : N) : bool :=
  ((65 <=? c) && (c <=? 90) || (97 <=? c) && (c <=? 122))%N.

Definition ascii_lower (c : N) : N :=
  if ((65 <=? c) && (c <=? 90))%N then (c + 32)%N else c.

Class UnidecodeLaws `{Unidecode} : Prop := {
  unidecode_is_ascii : ∀ s, Forall is_ascii (unidecode s);
  unidecode_ascii_id : ∀ s, Forall is_ascii s → unidecode s = s
}.

Class UnicodeLaws `{Unicode} : Prop := {
  isalpha_ascii : ∀ c, is_ascii c → isalpha c = ascii_isalpha c;
  lower_ascii : ∀ s, Forall is_ascii s → lower s = ascii_lower <$> s
}.

(** A small instance of the parameters: non-ASCII code points are dropped
    (what [unidecode] does with a character it has no entry for). *)
Definition ascii_only_unidecode : Unidecode :=
  filter is_ascii.

Definition ascii_unicode : Unicode :=
  {| isalpha := ascii_isalpha; lower := fmap ascii_lower |}.

(** ** [class Dictionary] *)

Module Dictionary.

Record t : Type := Build { dictionary : gset str; choices : list str }.

Section methods.
Context `{Unidecode, Unicode}.

(** [''.join(filter(str.isalpha, unidecode(word))).lower()] *)
Definition normalize (word : str) : str :=
  lower (filter (λ c, isalpha c) (unidecode word)).

(** [load(filename, type)], on the lines of the file. *)
Definition load (lines : list str) : list str :=
  normalize <$> lines.

(** [__init__]: the dictionary is extended with the choices. *)
Definition init (dictionary_lines choices_lines : list str) : t :=
  let cs := load choices_lines in
  {| dictionary := list_to_set (load dictionary_lines) ∪ list_to_set cs;
     choices := cs |}.
End methods.

Definition contains (d : t) (word : str) : bool :=
  bool_decide (word ∈ dictionary d).

End Dictionary.

(** A word as the program stores it: lowercase ASCII letters only. *)
Definition normalized (w : str) : Prop :=
  Forall (λ c, (97 ≤ c ≤ 122)%N) w.

(** ** [class Player] *)

Module Player.

Record t : Type := Build {
  mention : N;                 (* the user id, which fixes [user.mention] *)
  rank : Z;
  left : bool;
  letters : list (option N);
  answers : list Answer.t
}.

Definition set_rank (r : Z) (p : t) : t :=
  {| mention := mention p; rank := r; left := left p;
     letters := letters p; answers := answers p |}.

Definition set_left (b : bool) (p : t) : t :=
  {| mention := mention p; rank := rank p; left := b;
     letters := letters p; answers := answers p |}.

(** [Player(user, hidden_word)]: only the first letter is shown. *)
Definition init (user : N) (hidden_word : str) : t :=
  {| mention := user; rank := -1; left := false;
     letters := imap (λ i x, if decide (i = 0%nat) then Some x else None)
                     hidden_word;
     answers := [] |}.

(** [None not in self.letters] *)
Definition found (p : t) : bool := bool_decide (None ∉ letters p).

Definition over (p : t) : bool := found p || left p.

Definition answered (p : t) : bool := bool_decide (0 < length (answers p))%nat.

(** [x or y] on a letter or [None]: a letter is truthy. *)
Definition or_else (x y : option N) : option N :=
  match x with Some _ => x | None => y end.

Definition add_answer (p : t) (word hidden_word : str) : t :=
  let answer := Answer.init word hidden_word in
  {| mention := mention p; rank := rank p; left := left p;
     letters := zip_with or_else (letters p) (Answer.get_letters_found answer);
     answers := answers p ++ [answer] |}.

End Player.

(** ** [class Game] *)

Module Game.

(** [players] is keyed by the user, identified by its id. *)
Record t : Type := Build {
  dictionary : Dictionary.t;
  hidden_word : str;
  players : gmap N Player.t;
  next_rank : Z
}.

Definition set_players (ps : gmap N Player.t) (g : t) : t :=
  {| dictionary := dictionary g; hidden_word := hidden_word g;
     players := ps; next_rank := next_rank g |}.

Definition set_next_rank (r : Z) (g : t) : t :=
  {| dictionary := dictionary g; hidden_word := hidden_word g;
     players := players g; next_rank := r |}.

(** The three refusals of [add_answer], with the code points of the
    literals as they stand in the source file. *)
Definition too_short : str :=
  py "Le mot propos" ++ [8730; 169]%N ++ py " est trop court.".
Definition too_long : str :=
  py "Le mot propos" ++ [8730; 169]%N ++ py " est trop long.".
Definition not_in_dictionary : str :=
  py "Le mot propos" ++ [8730; 169]%N ++ py " n'est pas dans le dictionnaire.".

(** [Game(dictionary, users)]; [hidden_word] is the word that
    [dictionary.choice()] drew. *)
Definition init (d : Dictionary.t) (hidden_word : str) (users : list N) : t :=
  {| dictionary := d;
     hidden_word := hidden_word;
     players := list_to_map ((λ user, (user, Player.init user hidden_word)) <$> users);
     next_rank := 1 |}.

(** The key of [get_sorted_players]. *)
Definition sort_key (g : t) (player : Player.t) : Z :=
  if decide (Player.rank player > 0) then Player.rank player else next_rank g.

(** The order [sorted] compares the players in. *)
Definition key_le (g : t) (p q : Player.t) : Prop :=
  sort_key g p ≤ sort_key g q.

#[global] Instance key_le_dec g : RelDecision (key_le g).
Proof. intros p q. unfold key_le. apply _. Defined.

(** [sorted(self.players.values(), key=...)]. The values are taken in the
    order of the finite map, which only matters between equal keys. *)
Definition get_sorted_players (g : t) : list Player.t :=
  merge_sort (key_le g) (map_to_list (players g)).*2.

Definition over (g : t) : bool :=
  forallb Player.over (map_to_list (players g)).*2.

Definition answered (g : t) : bool :=
  existsb Player.answered (map_to_list (players g)).*2.

Definition add_player (g : t) (user : N) : t * bool :=
  match players g !! user with
  | Some _ => (g, false)
  | None =>
      (set_players (<[user := Player.init user (hidden_word g)]> (players g)) g,
       true)
  end.

Definition remove_player (g : t) (user : N) : t * bool :=
  match players g !! user with
  | None => (g, false)
  | Some player =>
      if Player.over player then (g, false)
      else (set_players (<[user := Player.set_left true player]> (players g)) g,
            true)
  end.

Section add_answer.
Context `{Unidecode, Unicode}.

Definition add_answer (g : t) (user : N) (word : str)
    : t * (bool * option str) :=
  match players g !! user with
  | None => (g, (false, None))
  | Some player =>
      if Player.over player then (g, (false, None)) else
      let word := Dictionary.normalize word in
      if decide (length word < length (hidden_word g))%nat then
        (g, (false, Some too_short))
      else if decide (length (hidden_word g) < length word)%nat then
        (g, (false, Some too_long))
      else if negb (Dictionary.contains (dictionary g) word) then
        (g, (false, Some not_in_dictionary))
      else
        let player := Player.add_answer player word (hidden_word g) in
        let g := set_players (<[user := player]> (players g)) g in
        let g :=
          if Player.found player then
            set_next_rank (next_rank g + 1)
              (set_players
                 (<[user := Player.set_rank (next_rank g) player]> (players g)) g)
          else g in
        (g, (true, None))
  end.
End add_answer.

End Game.

(** ** A session: a game driven by calls, one at a time *)

Inductive call : Type :=
  | AddPlayer (user : N)
  | RemovePlayer (user : N)
  | AddAnswer (user : N) (word : str).

(** The user a call comes from. *)
Definition caller (c : call) : N :=
  match c with AddPlayer user | RemovePlayer user | AddAnswer user _ => user end.

Section session.
Context `{Unidecode, Unicode}.

Definition step (g : Game.t) (c : call) : Game.t :=
  match c with
  | AddPlayer user => (Game.add_player g user).1
  | RemovePlayer user => (Game.remove_player g user).1
  | AddAnswer user word => (Game.add_answer g user word).1
  end.

Definition run (g : Game.t) (cs : list call) : Game.t := foldl step g cs.

(** The states a session goes through: a game started on a word of the
    choices, after any calls. *)
Definition reachable (g : Game.t) : Prop :=
  ∃ d hidden users cs,
    hidden ∈ Dictionary.choices d ∧ g = run (Game.init d hidden users) cs.

(** The rank of a user, when the user plays. *)
Definition rank_of (g : Game.t) (user : N) : option Z :=
  Player.rank <$> Game.players g !! user.

(** The rank a call hands out: the new rank of the calling user, when the
    user was playing and the call changed the rank. *)
Definition handed_by (g : Game.t) (c : call) : list Z :=
  match rank_of g (caller c), rank_of (step g c) (caller c) with
  | Some r, Some r' => if decide (r' = r) then [] else [r']
  | _, _ => []
  end.

(** All the ranks handed out along a sequence of calls, in order. *)
Fixpoint handed (g : Game.t) (cs : list call) : list Z :=
  match cs with
  | [] => []
  | c :: cs' => handed_by g c ++ handed (step g c) cs'
  end.
End session.

(** ** Text: [str(int)], [int(str)] and [file.readline()] *)

Module Text.

Definition newline : N := 10%N.

(** [str(n)] and the [{n}] of an f-string: the decimal digits of [n]. *)
Definition str_of_int (n : Z) : str :=
  py (NilZero.string_of_int (Z.to_int n)).

(** The characters [str.isspace] accepts; [int] strips them at both ends. *)
Definition isspace (c : N) : bool :=
  ((9 <=? c) && (c <=? 13) || (28 <=? c) && (c <=? 32)
   || (c =? 133) || (c =? 160) || (c =? 5760)
   || (8192 <=? c) && (c <=? 8202) || (c =? 8232) || (c =? 8233)
   || (c =? 8239) || (c =? 8287) || (c =? 12288))%N.

Fixpoint lstrip (s : str) : str :=
  match s with
  | c :: s' => if isspace c then lstrip s' else s
  | [] => []
  end.

Definition strip (s : str) : str :=
  reverse (lstrip (reverse (lstrip s))).

(** The text as a [string], when it is ASCII. *)
Fixpoint ascii_string (s : str) : option string :=
  match s with
  | [] => Some EmptyString
  | c :: s' =>
      if decide (c < 128)%N then String (ascii_of_N c) <$> ascii_string s'
      else None
  end.

(** [int(s)] on plain ASCII decimals: surrounding white space, one
    optional sign, at least one digit. [None] is [ValueError]. (Python
    also reads digit-separating underscores and the decimal digits of other
    scripts, which the program never writes; they are [None] here.) *)
Definition int_of_str (s : str) : option Z :=
  let body := strip s in
  match body with
  | [] => None
  | c :: digits =>
      if decide (c = 43%N) then         (* a plus sign *)
        d ← ascii_string digits ≫= NilZero.uint_of_string; Some (Z.of_uint d)
      else
        d ← ascii_string body ≫= NilZero.int_of_string; Some (Z.of_int d)
  end.

(** [file.readline()]: the next line with its newline, and what follows. *)
Fixpoint readline (content : str) : str * str :=
  match content with
  | [] => ([], [])
  | c :: rest =>
      if decide (c = newline) then ([c], rest)
      else let '(line, rest') := readline rest in (c :: line, rest')
  end.

End Text.

(** ** [json] (standard library)

    [json.dumps] and [json.loads] are parameters, on the one shape the
    program stores: an object from strings to integers. [json_loads] is
    [None] when [json.loads] raises or the value has another shape. *)

Class Json := {
  json_dumps : gmap str Z → str;
  json_loads : str → option (gmap str Z)
}.

Class JsonLaws `{Json} : Prop := {
  json_loads_dumps : ∀ m, json_loads (json_dumps m) = Some m;
  (** white space after the value is skipped *)
  json_loads_newline : ∀ s, json_loads (s ++ [Text.newline]) = json_loads s;
  (** without [indent], the text is one line *)
  json_dumps_one_line : ∀ m, Text.newline ∉ json_dumps m
}.

(** A small instance of the parameters: the map is written as its number in
    the enumeration of finite maps, in unary. *)
Definition tally_json : Json :=
  {| json_dumps m := replicate (encode_nat m) 120%N;
     json_loads s := decode_nat (length (filter (λ c, c = 120%N) s)) |}.

(** ** The files of the statistics: file name to content *)

Abbreviation files := (gmap str str).

(** ** [class PlayerStats] *)

Module PlayerStats.

Record t : Type := Build {
  ranks : gmap Z Z;
  words : gmap str Z;
  num_words_when_found : Z
}.

Definition init : t :=
  {| ranks := ∅; words := ∅; num_words_when_found := 0 |}.

Definition update (s : t) (player : Player.t) : t :=
  {| ranks := Counter.add (Player.rank player) 1 (ranks s);
     words := Counter.update (words s) (Answer.letters <$> Player.answers player);
     num_words_when_found :=
       if Player.found player
       then num_words_when_found s + Z.of_nat (length (Player.answers player))
       else num_words_when_found s |}.

(** The figures that [get_emojis] computes before it writes its text. *)
Definition num_played (s : t) : Z := Counter.total (ranks s).
Definition num_not_found (s : t) : Z := Counter.get (ranks s) (-1).
Definition num_found (s : t) : Z := num_played s - num_not_found s.
Definition num_words (s : t) : Z := Counter.total (words s).
Definition num_unique_words (s : t) : nat := size (words s).

(** [{ int(rank) : num for rank, num in obj.items() }]. When two keys read
    as the same integer Python keeps the later item; the finite map has no
    order of items and keeps one of them. The keys [save] writes are the
    texts of different integers. *)
Definition int_keys (obj : gmap str Z) : option (gmap Z Z) :=
  list_to_map <$>
    mapM (λ '(rank, num), k ← Text.int_of_str rank; Some (k, num))
         (map_to_list obj).

Section record.
Context `{Json}.

(** [json.dumps] writes an integer key as its decimal string. *)
Definition save (s : t) (filename : str) (fs : files) : files :=
  <[filename :=
      json_dumps (kmap Text.str_of_int (ranks s)) ++ [Text.newline]
      ++ json_dumps (words s) ++ [Text.newline]
      ++ Text.str_of_int (num_words_when_found s) ++ [Text.newline]]> fs.

(** [None] is an exception raised while reading the record. *)
Definition load (fs : files) (filename : str) : option t :=
  match fs !! filename with
  | None => Some init
  | Some content =>
      let '(line1, rest) := Text.readline content in
      obj ← json_loads line1;
      rs ← int_keys obj;
      let '(line2, rest) := Text.readline rest in
      ws ← json_loads line2;
      let '(line3, _) := Text.readline rest in
      n ← Text.int_of_str line3;
      Some {| ranks := rs; words := ws; num_words_when_found := n |}
  end.
End record.

End PlayerStats.

(** ** [class GamesStats] *)

Module GamesStats.

Record t : Type := Build {
  hidden_words : gmap str Z;
  num_players : Z
}.

Definition init : t := {| hidden_words := ∅; num_players := 0 |}.

Definition update (s : t) (game : Game.t) : t :=
  {| hidden_words := Counter.add (Game.hidden_word game) 1 (hidden_words s);
     num_players := num_players s + Z.of_nat (size (Game.players game)) |}.

(** The number of games that [get_emojis] computes. *)
Definition num_games (s : t) : Z := Counter.total (hidden_words s).

Section record.
Context `{Json}.

Definition save (s : t) (filename : str) (fs : files) : files :=
  <[filename :=
      json_dumps (hidden_words s) ++ [Text.newline]
      ++ Text.str_of_int (num_players s) ++ [Text.newline]]> fs.

Definition load (fs : files) (filename : str) : option t :=
  match fs !! filename with
  | None => Some init
  | Some content =>
      let '(line1, rest) := Text.readline content in
      ws ← json_loads line1;
      let '(line2, _) := Text.readline rest in
      n ← Text.int_of_str line2;
      Some {| hidden_words := ws; num_players := n |}
  end.
End record.

End GamesStats.

(** ** [class Stats] *)

Module Stats.

(** [players_stats] is keyed by the user, identified by its id. *)
Record t : Type := Build {
  folder : str;
  games_stats : GamesStats.t;
  players_stats : gmap N PlayerStats.t
}.

(** [f'{self.folder}/games.txt'] *)
Definition get_games_stats_filename (folder : str) : str :=
  folder ++ py "/games.txt".

(** [f'{self.folder}/{user.id}.txt'] *)
Definition get_player_stats_filename (folder : str) (user : N) : str :=
  folder ++ py "/" ++ Text.str_of_int (Z.of_N user) ++ py ".txt".

Section record.
Context `{Json}.

(** [Stats(folder)]; [None] when reading the file of the games raises. *)
Definition init (folder : str) (fs : files) : option t :=
  gs ← GamesStats.load fs (get_games_stats_filename folder);
  Some {| folder := folder; games_stats := gs; players_stats := ∅ |}.

(** One turn of the loop of [update]: the statistics of the user are loaded
    when they are not in memory yet, and updated with the player. *)
Definition update_player (fs : files) (folder : str)
    (acc : option (gmap N PlayerStats.t)) (item : N * Player.t)
    : option (gmap N PlayerStats.t) :=
  ps ← acc;
  st ← match ps !! item.1 with
       | Some st => Some st
       | None => PlayerStats.load fs (get_player_stats_filename folder item.1)
       end;
  Some (<[item.1 := PlayerStats.update st item.2]> ps).

(** [update(game)]; [None] when a file read on the way raises. The players
    are taken in the order of the finite map; each has its own entry. *)
Definition update (s : t) (game : Game.t) (fs : files) : option t :=
  ps ← foldl (update_player fs (folder s)) (Some (players_stats s))
         (map_to_list (Game.players game));
  Some {| folder := folder s;
          games_stats := GamesStats.update (games_stats s) game;
          players_stats := ps |}.

(** [save()]: the file of the games, then one file for each user. *)
Definition save (s : t) (fs : files) : files :=
  foldl (λ fs' item,
           PlayerStats.save item.2 (get_player_stats_filename (folder s) item.1) fs')
        (GamesStats.save (games_stats s) (get_games_stats_filename (folder s)) fs)
        (map_to_list (players_stats s)).
End record.

End Stats.

(** A player as a session hands it to the statistics. *)
Definition session_player `{Unidecode, Unicode} (p : Player.t) : Prop :=
  ∃ g user, reachable g ∧ Game.players g !! user = Some p.

(** ** Measures used in the statements *)

(** How many times [c] occurs in [w]. *)
Definition occurrences (c : N) (w : str) : nat :=
  length (filter (λ x, x = c) w).

(** How many indices carry the same letter in both words. *)
Definition exact_matches (word hidden_word : str) : nat :=
  length (filter (λ p, p.1 = p.2) (zip word hidden_word)).

(** How many positions are classified [ty]. *)
Definition classified (ty : LetterType) (types : list LetterType) : nat :=
  length (filter (λ t, t = ty) types).

(** How many positions hold [c] and are classified FOUND or EXIST. *)
Definition credited (c : N) (word : str) (types : list LetterType) : nat :=
  length (filter (λ p, p.1 = c ∧ p.2 ≠ WRONG) (zip word types)).

(** How many indices carry the letter [c] in both words. *)
Definition matches_on (c : N) (word hidden_word : str) : nat :=
  length (filter (λ p, p.1 = p.2 ∧ p.1 = c) (zip word hidden_word)).

(** ** When a guess is accepted *)

Section accepted.
Context `{Unidecode, Unicode}.

(** The state of player [p] once the guess [w] is scored. *)
Definition scored (g : Game.t) (p : Player.t) (w : str) : Player.t :=
  Player.add_answer p (Dictionary.normalize w) (Game.hidden_word g).

(** The guess [w] of user [u], whose state is [p], passes every check of
    [add_answer]. *)
Definition accepts (g : Game.t) (u : N) (p : Player.t) (w : str) : Prop :=
  Game.players g !! u = Some p
  ∧ Player.over p = false
  ∧ length (Dictionary.normalize w) = length (Game.hidden_word g)
  ∧ Dictionary.contains (Game.dictionary g) (Dictionary.normalize w) = true.
End accepted.

(** ** The invariant of a session *)

Record ranks_consistent (g : Game.t) : Prop := {
  next_rank_positive : 1 ≤ Game.next_rank g;
  (** a player is unranked, or holds a rank already handed out and has found
      the word *)
  rank_range : ∀ u p, Game.players g !! u = Some p →
    Player.rank p = -1
    ∨ (1 ≤ Player.rank p < Game.next_rank g ∧ Player.found p = true);
  (** a rank is held by one player *)
  rank_unique : ∀ u v p q,
    Game.players g !! u = Some p → Game.players g !! v = Some q →
    Player.rank p = Player.rank q → Player.rank p ≠ -1 → u = v;
  (** every rank below [next_rank] is held *)
  rank_held : ∀ r, 1 ≤ r < Game.next_rank g →
    ∃ u p, Game.players g !! u = Some p ∧ Player.rank p = r;
  (** a player who left is unranked *)
  left_unranked : ∀ u p, Game.players g !! u = Some p →
    Player.left p = true → Player.rank p = -1
}.

(** ** A small session, for the examples *)

Definition sample_dictionary : Dictionary.t :=
  {| Dictionary.dictionary := {[ py "chat"; py "chou"; py "chien" ]};
     Dictionary.choices := [py "chat"] |}.

Definition sample_game : Game.t :=
  Game.init sample_dictionary (py "chat") [1; 2]%N.

(** How many indices carry the letter [c] in the guess and another letter in
    the hidden word. *)
Definition misplaced_on (c : N) (word hidden_word : str) : nat :=
  length (filter (λ p, p.1 ≠ p.2 ∧ p.1 = c) (zip word hidden_word)).

(** ** What a session keeps of each player *)

Section kept.
Context `{Unidecode, Unicode}.

(** The letters shown to the player are the first letter of the hidden word
    and the letters that a guess of the history had in place. *)
Definition revealed (hidden_word : str) (p : Player.t) : Prop :=
  length (Player.letters p) = length hidden_word
  ∧ ∀ i c, Player.letters p !! i = Some (Some c)
      ↔ hidden_word !! i = Some c
        ∧ (i = 0%nat
           ∨ ∃ a, a ∈ Player.answers p ∧ Answer.letters a !! i = Some c).

(** The answer [a] is a guess that [add_answer] accepted and scored. *)
Definition recorded (g : Game.t) (a : Answer.t) : Prop :=
  (∃ w, Answer.letters a = Dictionary.normalize w)
  ∧ length (Answer.letters a) = length (Game.hidden_word g)
  ∧ Dictionary.contains (Game.dictionary g) (Answer.letters a) = true
  ∧ Answer.types a = Answer.check (Answer.letters a) (Game.hidden_word g).

Record players_consistent (g : Game.t) : Prop := {
  player_key : ∀ u p, Game.players g !! u = Some p → Player.mention p = u;
  player_revealed : ∀ u p, Game.players g !! u = Some p →
    revealed (Game.hidden_word g) p;
  player_history : ∀ u p a, Game.players g !! u = Some p →
    a ∈ Player.answers p → recorded g a;
  player_ranked : ∀ u p, Game.players g !! u = Some p →
    Player.rank p ≠ -1 → Player.answers p ≠ []
}.
End kept.

(** ** The helpers of the messages: [join] and [split_message] *)

(** [sep.join(seq)] *)
Fixpoint str_join (sep : str) (seq : list str) : str :=
  match seq with
  | [] => []
  | x :: rest =>
      match rest with
      | [] => x
      | _ :: _ => x ++ sep ++ str_join sep rest
      end
  end.

(** [join(seq, sep, sep_last)]; [None] is the [IndexError] of [seq[0]]. *)
Definition join (seq : list str) (sep sep_last : str) : option str :=
  if decide (1 < length seq)%nat then
    z ← last seq; Some (str_join sep (removelast seq) ++ sep_last ++ z)
  else seq !! 0%nat.

(** What follows [sep] in [s], when [s] starts with [sep]. *)
Fixpoint after_prefix (sep s : str) : option str :=
  match sep, s with
  | [], _ => Some s
  | a :: sep', b :: s' => if decide (a = b) then after_prefix sep' s' else None
  | _ :: _, [] => None
  end.

(** The scan of [s.split(sep)], from left to right: [cur] is the piece being
    read; an occurrence of [sep] closes it and is skipped. The scan takes at
    most one step for each character of [s]. *)
Fixpoint split_scan (steps : nat) (sep cur s : str) : list str :=
  match steps, s with
  | _, [] => [cur]
  | 0%nat, _ => [cur ++ s]
  | S steps', c :: s' =>
      match after_prefix sep s with
      | Some rest => cur :: split_scan steps' sep [] rest
      | None => split_scan steps' sep (cur ++ [c]) s'
      end
  end.

(** [s.split(sep)]; [None] is the [ValueError] of an empty separator. *)
Definition str_split (s sep : str) : option (list str) :=
  if decide (sep = []) then None
  else Some (split_scan (length s) sep [] s).

Definition zero_width_space : N := 8203%N.

(** The loop of [split_message]: the chunks yielded, in order. *)
Fixpoint chunks (sep : str) (limit : Z) (current : str) (lines : list str)
    : list str :=
  match lines with
  | [] => [current ++ [zero_width_space]]
  | line :: rest =>
      if decide (Z.of_nat (length current) + Z.of_nat (length line) < limit)
      then chunks sep limit (current ++ sep ++ line) rest
      else (current ++ [zero_width_space]) :: chunks sep limit line rest
  end.

(** [split_message(message, sep, limit)], as the list of what the generator
    yields; [None] when it raises. *)
Definition split_message (message sep : str) (limit : Z)
    : option (list str) :=
  lines ← str_split message sep;
  match lines with
  | [] => None
  | current :: rest => Some (chunks sep (limit - 1) current rest)
  end.

(** ** Statistics accumulated from sessions *)

(** No count is negative. *)
Definition no_negative_count `{Countable K} (c : gmap K Z) : Prop :=
  map_Forall (λ _ v, 0 ≤ v) c.

Record well_counted (s : PlayerStats.t) : Prop := {
  ranks_counted : no_negative_count (PlayerStats.ranks s);
  words_counted : no_negative_count (PlayerStats.words s);
  found_counted :
    0 ≤ PlayerStats.num_words_when_found s ≤ PlayerStats.num_words s;
  words_when_found :
    PlayerStats.num_found s ≠ 0 → PlayerStats.words s ≠ ∅
}.

(** ** The emojis of ranks and of classifications *)

(** [l[i]], with Python's negative indices; [None] is [IndexError]. *)
Definition py_index {A} (l : list A) (i : Z) : option A :=
  if decide (0 ≤ i) then l !! Z.to_nat i
  else if decide (- Z.of_nat (length l) ≤ i)
       then l !! Z.to_nat (Z.of_nat (length l) + i)
       else None.

Definition digits : list str :=
  [py ":zero:"; py ":one:"; py ":two:"; py ":three:"; py ":four:";
   py ":five:"; py ":six:"; py ":seven:"; py ":eight:"; py ":nine:"].

(** [digits[int(c)]] for a character [c] of [str(rank)]. *)
Definition digit_emoji (c : N) : option str :=
  i ← Text.int_of_str [c]; py_index digits i.

(** [rank_to_emojis(rank)]; [None] is an exception. *)
Definition rank_to_emojis (rank : Z) : option str :=
  if decide (rank < 1) then Some (py ":interrobang:")
  else if decide (rank = 1) then Some (py ":first_place:")
  else if decide (rank = 2) then Some (py ":second_place:")
  else if decide (rank = 3) then Some (py ":third_place:")
  else names ← mapM digit_emoji (Text.str_of_int rank); Some (concat names).

(** The entry of [digits] for the character of a decimal digit. *)
Definition digit_name_of (c : N) : str :=
  default [] (digits !! N.to_nat (c - 48)).

Definition type_to_emojis (type : LetterType) : str :=
  match type with
  | FOUND => py ":red_square:"
  | EXIST => py ":yellow_square:"
  | WRONG => py ":blue_square:"
  end.

Definition types_to_emojis (types : list LetterType) : str :=
  str_join (py " ") (type_to_emojis <$> types).

(** * Facts *)

(** ** Counters *)

Section counter_facts.
Context `{Countable K}.
Implicit Types (c : gmap K Z) (x y : K).

Lemma get_add c x y d :
  Counter.get (Counter.add x d c) y
  = if decide (y = x) then Counter.get c x + d else Counter.get c y.
Proof.
  unfold Counter.add, Counter.get at 1.
  destruct (decide (y = x)) as [->|Hne].
  - by rewrite lookup_insert_eq.
  - by rewrite lookup_insert_ne.
Qed.

Lemma get_update c l y :
  Counter.get (Counter.update c l) y
  = Counter.get c y + Z.of_nat (length (filter (λ x, x = y) l)).
Proof.
  revert c. induction l as [|x l IH]; intros c; simpl.
  - lia.
  - unfold Counter.update in *. simpl. rewrite IH, get_add, filter_cons.
    destruct (decide (y = x)) as [->|Hne].
    + rewrite decide_True by done. simpl. lia.
    + rewrite decide_False by done. lia.
Qed.

Lemma get_of_list l y :
  Counter.get (Counter.of_list l) y
  = Z.of_nat (length (filter (λ x, x = y) l)).
Proof.
  unfold Counter.of_list. rewrite get_update.
  unfold Counter.get. by rewrite lookup_empty.
Qed.
End counter_facts.

(** ** Scoring *)

Section check_facts.
Implicit Types (word hidden : str) (counts : gmap N Z) (c : N).

Lemma length_classify H counts pairs :
  length (Answer.classify H counts pairs) = length pairs.
Proof.
  revert counts. induction pairs as [|[x y] pairs IH]; intros counts; simpl.
  - done.
  - repeat case_decide; simpl; by rewrite IH.
Qed.

Lemma classified_found_classify H counts word hidden :
  classified FOUND (Answer.classify H counts (zip word hidden))
  = exact_matches word hidden.
Proof.
  unfold classified, exact_matches.
  revert hidden counts.
  induction word as [|x word IH]; intros [|y hidden] counts; simpl; try done.
  rewrite (filter_cons _ (x, y)). simpl.
  destruct (decide (x = y)) as [->|Hne].
  - rewrite filter_cons, decide_True by done. simpl. by rewrite IH.
  - case_decide; rewrite filter_cons, decide_False by done; apply IH.
Qed.

Lemma get_reserve counts word hidden c :
  Counter.get (Answer.reserve counts (zip word hidden)) c
  = Counter.get counts c - Z.of_nat (matches_on c word hidden).
Proof.
  unfold matches_on. revert hidden counts.
  induction word as [|x word IH]; intros [|y hidden] counts; simpl; try lia.
  rewrite filter_cons. simpl.
  destruct (decide (x = y)) as [->|Hne].
  - rewrite IH, get_add.
    destruct (decide (c = y)) as [->|Hc].
    + rewrite decide_True by done. simpl. lia.
    + rewrite decide_False by (intros [? ?]; congruence). lia.
  - rewrite IH, decide_False by (intros [? ?]; congruence). lia.
Qed.

Lemma matches_on_le_occurrences c word hidden :
  (matches_on c word hidden ≤ occurrences c hidden)%nat.
Proof.
  unfold matches_on, occurrences. revert hidden.
  induction word as [|x word IH]; intros [|y hidden]; simpl; try lia.
  rewrite !filter_cons. simpl. specialize (IH hidden).
  repeat case_decide; simpl; try lia; intuition congruence.
Qed.

Lemma credited_classify H counts word hidden c :
  Z.of_nat (credited c word (Answer.classify H counts (zip word hidden)))
  ≤ Z.of_nat (matches_on c word hidden) + Z.max 0 (Counter.get counts c).
Proof.
  unfold credited, matches_on. revert hidden counts.
  induction word as [|x word IH]; intros [|y hidden] counts; simpl; try lia.
  rewrite (filter_cons _ (x, y)). simpl.
  destruct (decide (x = y)) as [->|Hne].
  - simpl. rewrite filter_cons. simpl. specialize (IH hidden counts).
    destruct (decide (y = c)) as [->|Hc].
    + rewrite !decide_True by done. simpl. lia.
    + rewrite !decide_False by (intros [? ?]; congruence). lia.
  - rewrite (decide_False (P := x = y ∧ x = c)) by (intros [? ?]; congruence).
    case_decide as Hex; simpl; rewrite filter_cons; simpl.
    + specialize (IH hidden (Counter.add x (-1) counts)).
      rewrite get_add in IH.
      destruct (decide (x = c)) as [->|Hc].
      * rewrite decide_True in IH by done.
        rewrite decide_True by done. simpl. lia.
      * rewrite decide_False in IH by done.
        rewrite decide_False by (intros [? ?]; congruence). lia.
    + rewrite decide_False by (intros [? ?]; congruence). apply IH.
Qed.

Lemma length_check word hidden :
  length (Answer.check word hidden) = (length word `min` length hidden)%nat.
Proof. unfold Answer.check. by rewrite length_classify, length_zip. Qed.

Lemma credited_check word hidden c :
  (credited c word (Answer.check word hidden) ≤ occurrences c hidden)%nat.
Proof.
  unfold Answer.check.
  pose proof (credited_classify hidden
    (Answer.reserve (Counter.of_list hidden) (zip word hidden)) word hidden c) as Hc.
  rewrite get_reserve, get_of_list in Hc.
  pose proof (matches_on_le_occurrences c word hidden) as Hm.
  unfold occurrences in *. lia.
Qed.
End check_facts.

(** ** Claims on the scoring *)

(** C1. For words of equal length L, [Answer.check] returns L
    classifications; as many are FOUND as there are indices where the two
    words agree; and for every letter [c], the positions of the guess that
    hold [c] and are classified FOUND or EXIST are at most the occurrences of
    [c] in the hidden word. *)
Theorem check_classification (word hidden_word : str) :
  length word = length hidden_word →
  length (Answer.check word hidden_word) = length hidden_word
  ∧ classified FOUND (Answer.check word hidden_word)
    = exact_matches word hidden_word
  ∧ ∀ c, (credited c word (Answer.check word hidden_word)
          ≤ occurrences c hidden_word)%nat.
Proof.
  intros Hlen. split; [|split].
  - rewrite length_check. lia.
  - apply classified_found_classify.
  - intros c. apply credited_check.
Qed.

Lemma check_classification_witness :
  length (Answer.check (py "radar") (py "arbre")) = length (py "arbre")
  ∧ classified FOUND (Answer.check (py "radar") (py "arbre"))
    = exact_matches (py "radar") (py "arbre")
  ∧ ∀ c, (credited c (py "radar") (Answer.check (py "radar") (py "arbre"))
          ≤ occurrences c (py "arbre"))%nat.
Proof. apply (check_classification (py "radar") (py "arbre")). reflexivity. Defined.

(** C2, as the specification gives the example: the last R of "radar" would
    be WRONG. The program does not return that sequence. *)
Lemma check_radar_arbre_not_as_specified :
  Answer.check (py "radar") (py "arbre") ≠ [EXIST; EXIST; WRONG; WRONG; WRONG].
Proof. vm_compute. discriminate. Qed.

(** C2, amended. Against "arbre", the guess "radar" is classified EXIST,
    EXIST, WRONG, WRONG, EXIST: no letter is in place, the one A is used up
    by the first A of the guess, and the hidden word has two R, one for each
    R of the guess. *)
Theorem check_radar_arbre :
  Answer.check (py "radar") (py "arbre") = [EXIST; EXIST; WRONG; WRONG; EXIST].
Proof. vm_compute. reflexivity. Qed.

(** C9, as stated: on words of different lengths the scoring would not
    return a classification. It does: the pairs of [zip] stop at the shorter
    word, and the two pairs of "ab" against "abc" are both FOUND. *)
Lemma check_mismatched_lengths_returns :
  length (py "ab") ≠ length (py "abc")
  ∧ Answer.check (py "ab") (py "abc") = [FOUND; FOUND].
Proof. split; [simpl; lia | vm_compute; reflexivity]. Qed.

(** ** Normalisation *)

Lemma ascii_only_unidecode_laws : @UnidecodeLaws ascii_only_unidecode.
Proof.
  split; unfold unidecode, ascii_only_unidecode.
  - intros s. apply Forall_forall. intros c Hc.
    by apply list_elem_of_filter in Hc as [? _].
  - intros s Hs. induction Hs as [|c s Hc Hs IH]; [done|].
    by rewrite filter_cons, decide_True, IH.
Qed.

Lemma ascii_unicode_laws : @UnicodeLaws ascii_unicode.
Proof. by split. Qed.

Section normalize_facts.
Context `{Unidecode, Unicode} {HU : UnidecodeLaws} {HP : UnicodeLaws}.

Lemma ascii_lower_letter c :
  ascii_isalpha c = true → (97 ≤ ascii_lower c ≤ 122)%N.
Proof.
  unfold ascii_isalpha, ascii_lower. intros Hc.
  destruct ((65 <=? c) && (c <=? 90))%N eqn:E.
  - rewrite andb_true_iff, !N.leb_le in E. lia.
  - simpl in Hc. rewrite andb_true_iff, !N.leb_le in Hc. lia.
Qed.

Lemma normalized_ascii w : normalized w → Forall is_ascii w.
Proof.
  intros Hw. eapply Forall_impl; [exact Hw|]. unfold is_ascii. simpl. lia.
Qed.

Lemma normalized_normalize w : normalized (Dictionary.normalize w).
Proof.
  unfold Dictionary.normalize.
  assert (Forall (λ c, is_ascii c ∧ ascii_isalpha c = true)
            (filter (λ c, isalpha c) (unidecode w))) as Hf.
  { apply Forall_forall. intros c Hc.
    apply list_elem_of_filter in Hc as [Ha Hc].
    pose proof (unidecode_is_ascii w) as Hw.
    rewrite Forall_forall in Hw. specialize (Hw c Hc).
    split; [done|]. rewrite <- isalpha_ascii by done. by apply Is_true_eq_true. }
  rewrite lower_ascii by (eapply Forall_impl; [exact Hf|]; by intros ? [? _]).
  apply Forall_fmap. eapply Forall_impl; [exact Hf|].
  intros c [_ Hc]. by apply ascii_lower_letter.
Qed.

Lemma normalize_normalized w : normalized w → Dictionary.normalize w = w.
Proof.
  intros Hw. unfold Dictionary.normalize.
  pose proof (normalized_ascii w Hw) as Ha.
  rewrite unidecode_ascii_id by done.
  assert (filter (λ c, isalpha c) w = w) as ->.
  { clear Ha. induction Hw as [|c w Hc Hw IH]; [done|].
    rewrite filter_cons, decide_True, IH; [done|].
    rewrite isalpha_ascii by (unfold is_ascii; lia).
    unfold ascii_isalpha. apply Is_true_eq_left.
    rewrite orb_true_iff, !andb_true_iff, !N.leb_le. lia. }
  rewrite lower_ascii by done.
  clear Ha. induction Hw as [|c w Hc Hw IH]; [done|].
  rewrite fmap_cons, IH. f_equal. unfold ascii_lower.
  destruct ((65 <=? c) && (c <=? 90))%N eqn:E; [|done].
  rewrite andb_true_iff, !N.leb_le in E. lia.
Qed.
End normalize_facts.

(** C8. [Dictionary.normalize] is a function on all strings: every input has
    a result, a word of lowercase letters; normalising that result, or any
    word of lowercase letters, gives it back unchanged. *)
Theorem normalize_idempotent `{Unidecode, Unicode} :
  UnidecodeLaws → UnicodeLaws →
  ∀ w : str,
    normalized (Dictionary.normalize w)
    ∧ Dictionary.normalize (Dictionary.normalize w) = Dictionary.normalize w
    ∧ (normalized w → Dictionary.normalize w = w).
Proof.
  intros HU HP w. split; [|split].
  - apply normalized_normalize.
  - apply normalize_normalized, normalized_normalize.
  - apply normalize_normalized.
Qed.

Lemma normalize_idempotent_witness :
  let normalize := @Dictionary.normalize ascii_only_unidecode ascii_unicode in
  let w := py "Sutom, 2 fois!" in
  normalize w = py "sutomfois"
  ∧ normalized (normalize w)
  ∧ normalize (normalize w) = normalize w
  ∧ (normalized w → normalize w = w).
Proof.
  split; [vm_compute; reflexivity|].
  apply (@normalize_idempotent ascii_only_unidecode ascii_unicode
           ascii_only_unidecode_laws ascii_unicode_laws).
Defined.

(** ** Players *)

Section player_facts.
Implicit Types (p : Player.t) (word hidden : str).

Lemma rank_add_answer p word hidden :
  Player.rank (Player.add_answer p word hidden) = Player.rank p.
Proof. done. Qed.

Lemma left_add_answer p word hidden :
  Player.left (Player.add_answer p word hidden) = Player.left p.
Proof. done. Qed.

Lemma found_set_rank r p : Player.found (Player.set_rank r p) = Player.found p.
Proof. done. Qed.

Lemma over_false p :
  Player.over p = false ↔ Player.found p = false ∧ Player.left p = false.
Proof. unfold Player.over. apply orb_false_iff. Qed.

Lemma over_found p : Player.found p = true → Player.over p = true.
Proof. unfold Player.over. by intros ->. Qed.

Lemma over_left p : Player.left p = true → Player.over p = true.
Proof. unfold Player.over. intros ->. apply orb_true_r. Qed.

(** A new player of a word of two letters or more still has to find it. *)
Lemma over_init u hidden :
  (2 ≤ length hidden)%nat → Player.over (Player.init u hidden) = false.
Proof.
  intros Hlen. apply over_false. split; [|done].
  destruct hidden as [|x [|y hidden]]; simpl in Hlen; try lia.
  unfold Player.found. apply bool_decide_eq_false. intros Hn. apply Hn.
  simpl. apply list_elem_of_further, list_elem_of_here.
Qed.
End player_facts.

(** ** The three calls *)

Section game_facts.
Context `{Unidecode, Unicode}.
Implicit Types (g : Game.t) (u v : N) (p q : Player.t) (w : str).

Lemma add_answer_accepted g u p w :
  accepts g u p w →
  Game.add_answer g u w =
    (if Player.found (scored g p w) then
       Game.set_next_rank (Game.next_rank g + 1)
         (Game.set_players
            (<[u := Player.set_rank (Game.next_rank g) (scored g p w)]>
               (Game.players g)) g)
     else Game.set_players (<[u := scored g p w]> (Game.players g)) g,
     (true, None)).
Proof.
  intros (Hu & Hover & Hlen & Hin). unfold Game.add_answer, scored.
  rewrite Hu, Hover. simpl.
  rewrite !decide_False by lia. rewrite Hin. simpl.
  destruct (Player.found _); [|done].
  unfold Game.set_next_rank, Game.set_players. simpl.
  by rewrite insert_insert_eq.
Qed.

Lemma add_answer_cases g u w :
  (Game.add_answer g u w).1 = g ∧ (Game.add_answer g u w).2.1 = false
  ∨ ∃ p, accepts g u p w.
Proof.
  unfold accepts, Game.add_answer.
  destruct (Game.players g !! u) as [p|] eqn:Hu; [|by left].
  destruct (Player.over p) eqn:Hover; [by left|]. simpl.
  repeat case_decide; try by left.
  destruct (Dictionary.contains _ _) eqn:Hin; [|by left].
  right. exists p. repeat split; try done. lia.
Qed.

Lemma add_answer_rejected_unchanged g u w :
  (Game.add_answer g u w).2.1 = false → (Game.add_answer g u w).1 = g.
Proof.
  intros Hrej. destruct (add_answer_cases g u w) as [[? _]|[p Hacc]]; [done|].
  rewrite (add_answer_accepted _ _ _ _ Hacc) in Hrej. done.
Qed.

(** A call by [u] leaves the other players as they are. *)
Lemma step_other g c u :
  caller c ≠ u → Game.players (step g c) !! u = Game.players g !! u.
Proof.
  intros Hne. destruct c as [v|v|v w]; simpl in *.
  - unfold Game.add_player. destruct (Game.players g !! v); [done|].
    simpl. by rewrite lookup_insert_ne.
  - unfold Game.remove_player. destruct (Game.players g !! v); [|done].
    destruct (Player.over _); [done|]. simpl. by rewrite lookup_insert_ne.
  - destruct (add_answer_cases g v w) as [[-> _]|[p Hacc]]; [done|].
    rewrite (add_answer_accepted _ _ _ _ Hacc). simpl.
    destruct (Player.found _); simpl; by rewrite lookup_insert_ne.
Qed.

(** A player who is over is never touched again. *)
Lemma step_over_frozen g c u p :
  Game.players g !! u = Some p → Player.over p = true →
  Game.players (step g c) !! u = Some p.
Proof.
  intros Hu Hover.
  destruct (decide (caller c = u)) as [Heq|Hne].
  - destruct c as [v|v|v w]; simpl in *; subst v.
    + unfold Game.add_player. by rewrite Hu.
    + unfold Game.remove_player. by rewrite Hu, Hover.
    + unfold Game.add_answer. by rewrite Hu, Hover.
  - by rewrite step_other.
Qed.

Lemma run_over_frozen g cs u p :
  Game.players g !! u = Some p → Player.over p = true →
  Game.players (run g cs) !! u = Some p.
Proof.
  revert g. induction cs as [|c cs IH]; intros g Hu Hover; [done|].
  simpl. apply IH; [|done]. by apply step_over_frozen.
Qed.

Lemma run_app g cs cs' : run g (cs ++ cs') = run (run g cs) cs'.
Proof. apply foldl_app. Qed.

Lemma hidden_word_step g c : Game.hidden_word (step g c) = Game.hidden_word g.
Proof.
  destruct c as [v|v|v w]; simpl.
  - unfold Game.add_player. by destruct (Game.players g !! v).
  - unfold Game.remove_player. destruct (Game.players g !! v); [|done].
    by destruct (Player.over _).
  - destruct (add_answer_cases g v w) as [[-> _]|[p Hacc]]; [done|].
    rewrite (add_answer_accepted _ _ _ _ Hacc). simpl.
    by destruct (Player.found _).
Qed.
Lemma remove_player_ranks g u :
  Game.next_rank (Game.remove_player g u).1 = Game.next_rank g
  ∧ ∀ v, rank_of (Game.remove_player g u).1 v = rank_of g v.
Proof.
  unfold Game.remove_player.
  destruct (Game.players g !! u) as [p|] eqn:Hu; [|done].
  destruct (Player.over p); [done|]. split; [done|].
  intros v. unfold rank_of. simpl. rewrite lookup_insert.
  case_decide as Hv; [|done]. subst v. by rewrite Hu.
Qed.

Lemma add_player_ranks g u :
  Game.next_rank (Game.add_player g u).1 = Game.next_rank g
  ∧ ∀ v, is_Some (Game.players g !! v) →
         rank_of (Game.add_player g u).1 v = rank_of g v.
Proof.
  unfold Game.add_player.
  destruct (Game.players g !! u) as [p|] eqn:Hu; [done|]. split; [done|].
  intros v [q Hv]. unfold rank_of. simpl. rewrite lookup_insert_ne; [done|].
  intros <-. congruence.
Qed.

End game_facts.

(** ** The invariant holds along every session *)

Section invariant_facts.
Context `{Unidecode, Unicode}.
Implicit Types (g : Game.t) (u v : N) (p q : Player.t) (w : str).

Lemma init_player d hidden users u p :
  Game.players (Game.init d hidden users) !! u = Some p →
  p = Player.init u hidden.
Proof.
  simpl. intros Hu. apply elem_of_list_to_map_2 in Hu.
  apply list_elem_of_fmap in Hu as (v & [= -> ->] & _). done.
Qed.

Lemma ranks_consistent_init d hidden users :
  ranks_consistent (Game.init d hidden users).
Proof.
  split.
  - simpl. lia.
  - intros u p Hu. apply init_player in Hu as ->. by left.
  - intros u v p q Hu _ _ Hr. apply init_player in Hu as ->. done.
  - simpl. intros r Hr. lia.
  - intros u p Hu _. by apply init_player in Hu as ->.
Qed.

Lemma ranks_consistent_add_player g u :
  ranks_consistent g → ranks_consistent (Game.add_player g u).1.
Proof.
  intros [Hn Hr Hi Hs Hl]. unfold Game.add_player.
  destruct (Game.players g !! u) as [p0|] eqn:Hu; [done|].
  split; simpl.
  - done.
  - intros v p. rewrite lookup_insert. case_decide.
    + intros [= <-]. by left.
    + apply Hr.
  - intros v1 v2 p q. rewrite !lookup_insert.
    repeat case_decide; intros Hp Hq; simplify_eq; simpl; try done.
    eauto.
  - intros r Hrange. destruct (Hs r Hrange) as (v & p & Hv & Hp).
    exists v, p. split; [|done]. rewrite lookup_insert_ne; [done|congruence].
  - intros v p. rewrite lookup_insert. case_decide.
    + by intros [= <-].
    + apply Hl.
Qed.

Lemma ranks_consistent_remove_player g u :
  ranks_consistent g → ranks_consistent (Game.remove_player g u).1.
Proof.
  intros [Hn Hr Hi Hs Hl]. unfold Game.remove_player.
  destruct (Game.players g !! u) as [p0|] eqn:Hu; [|done].
  destruct (Player.over p0) eqn:Hover; [done|].
  apply over_false in Hover as [Hnf Hnl].
  assert (Player.rank p0 = -1) as Hp0.
  { destruct (Hr u p0 Hu) as [?|[_ ?]]; [done|congruence]. }
  split; simpl.
  - done.
  - intros v p. rewrite lookup_insert. case_decide.
    + intros [= <-]. by left.
    + apply Hr.
  - intros v1 v2 p q. rewrite !lookup_insert.
    repeat case_decide; intros Hp Hq; simplify_eq; simpl; try done;
      intros Heq Hne; first [congruence | eauto].
  - intros r Hrange. destruct (Hs r Hrange) as (v & p & Hv & Hp).
    exists v, p. split; [|done]. rewrite lookup_insert_ne; [done|].
    intros <-. simplify_eq. lia.
  - intros v p. rewrite lookup_insert. case_decide.
    + by intros [= <-].
    + apply Hl.
Qed.

Lemma ranks_consistent_add_answer g u w :
  ranks_consistent g → ranks_consistent (Game.add_answer g u w).1.
Proof.
  intros Hg. destruct (add_answer_cases g u w) as [[-> _]|[p0 Hacc]]; [done|].
  rewrite (add_answer_accepted _ _ _ _ Hacc).
  destruct Hacc as (Hu & Hover & _). destruct Hg as [Hn Hr Hi Hs Hl].
  apply over_false in Hover as [Hnf Hnl].
  assert (Player.rank p0 = -1) as Hp0.
  { destruct (Hr u p0 Hu) as [?|[_ ?]]; [done|congruence]. }
  destruct (Player.found (scored g p0 w)) eqn:Hfound; split; simpl.
  - lia.
  - intros v p. rewrite lookup_insert. case_decide.
    + intros [= <-]. right. simpl. rewrite found_set_rank. split; [lia|done].
    + intros Hv. destruct (Hr v p Hv) as [?|[? ?]]; [by left|right].
      split; [lia|done].
  - intros v1 v2 p q. rewrite !lookup_insert.
    repeat case_decide; intros Hp Hq; simplify_eq; simpl; try done;
      intros Heq Hne;
      first [ by eauto
            | destruct (Hr _ _ Hq) as [?|[? _]]; lia
            | destruct (Hr _ _ Hp) as [?|[? _]]; lia ].
  - intros r Hrange. destruct (decide (r = Game.next_rank g)) as [->|Hne].
    + eexists u, _. rewrite lookup_insert_eq. done.
    + destruct (Hs r ltac:(lia)) as (v & p & Hv & Hp).
      exists v, p. split; [|done]. rewrite lookup_insert_ne; [done|].
      intros <-. simplify_eq. lia.
  - intros v p. rewrite lookup_insert. case_decide.
    + intros [= <-]. simpl. congruence.
    + apply Hl.
  - done.
  - intros v p. rewrite lookup_insert. case_decide.
    + intros [= <-]. by left.
    + apply Hr.
  - intros v1 v2 p q. rewrite !lookup_insert.
    repeat case_decide; intros Hp Hq; simplify_eq; simpl; try done;
      intros Heq Hne; first [congruence | eauto].
  - intros r Hrange. destruct (Hs r Hrange) as (v & p & Hv & Hp).
    exists v, p. split; [|done]. rewrite lookup_insert_ne; [done|].
    intros <-. simplify_eq. lia.
  - intros v p. rewrite lookup_insert. case_decide.
    + by intros [= <-].
    + apply Hl.
Qed.

Lemma ranks_consistent_step g c :
  ranks_consistent g → ranks_consistent (step g c).
Proof.
  destruct c; simpl;
    auto using ranks_consistent_add_player, ranks_consistent_remove_player,
               ranks_consistent_add_answer.
Qed.

Lemma ranks_consistent_run g cs :
  ranks_consistent g → ranks_consistent (run g cs).
Proof.
  revert g. induction cs as [|c cs IH]; intros g Hg; [done|].
  simpl. by apply IH, ranks_consistent_step.
Qed.

Lemma reachable_consistent g : reachable g → ranks_consistent g.
Proof.
  intros (d & hidden & users & cs & _ & ->).
  apply ranks_consistent_run, ranks_consistent_init.
Qed.

Lemma reachable_run g cs : reachable g → reachable (run g cs).
Proof.
  intros (d & hidden & users & cs0 & Hin & ->).
  exists d, hidden, users, (cs0 ++ cs). by rewrite run_app.
Qed.
End invariant_facts.

(** ** Ranks are handed out in order *)

Section rank_facts.
Context `{Unidecode, Unicode}.
Implicit Types (g : Game.t) (u v : N) (p q : Player.t) (w : str).

Lemma unranked_while_playing g u p :
  ranks_consistent g → Game.players g !! u = Some p →
  Player.over p = false → Player.rank p = -1.
Proof.
  intros Hg Hu Hover. apply over_false in Hover as [Hnf _].
  destruct (rank_range g Hg u p Hu) as [?|[_ ?]]; [done|congruence].
Qed.

(** One call of [add_answer]: either no rank moves, or the caller, who had
    not found the word, now has, and takes [next_rank]. *)
Lemma add_answer_rank_step g u w :
  ranks_consistent g →
  let g' := (Game.add_answer g u w).1 in
  (Game.next_rank g' = Game.next_rank g ∧ ∀ v, rank_of g' v = rank_of g v)
  ∨ (∃ p p',
       Game.players g !! u = Some p ∧ Game.players g' !! u = Some p'
       ∧ Player.found p = false ∧ Player.found p' = true
       ∧ Player.rank p = -1 ∧ Player.rank p' = Game.next_rank g
       ∧ Game.next_rank g' = Game.next_rank g + 1
       ∧ ∀ v, v ≠ u → Game.players g' !! v = Game.players g !! v).
Proof.
  intros Hg g'. subst g'.
  destruct (add_answer_cases g u w) as [[-> _]|[p Hacc]]; [by left|].
  rewrite (add_answer_accepted _ _ _ _ Hacc).
  destruct Hacc as (Hu & Hover & _).
  pose proof (unranked_while_playing g u p Hg Hu Hover) as Hrank.
  apply over_false in Hover as [Hnf _].
  destruct (Player.found (scored g p w)) eqn:Hfound; simpl.
  - right. exists p, (Player.set_rank (Game.next_rank g) (scored g p w)).
    rewrite lookup_insert_eq. repeat split; try done.
    intros v Hv. by rewrite lookup_insert_ne.
  - left. split; [done|]. intros v. unfold rank_of. simpl.
    rewrite lookup_insert. case_decide as Hv; [|done].
    subst v. by rewrite Hu.
Qed.

Lemma handed_by_step g c :
  ranks_consistent g →
  handed_by g c = [] ∧ Game.next_rank (step g c) = Game.next_rank g
  ∨ handed_by g c = [Game.next_rank g]
    ∧ Game.next_rank (step g c) = Game.next_rank g + 1.
Proof.
  intros Hg. unfold handed_by. destruct c as [v|v|v w]; simpl.
  - left. destruct (add_player_ranks g v) as [Hn Hsame]. split; [|done].
    destruct (rank_of g v) as [r|] eqn:Hr; [|done].
    rewrite Hsame, Hr; [by rewrite decide_True|].
    unfold rank_of in Hr. by destruct (Game.players g !! v).
  - left. destruct (remove_player_ranks g v) as [Hn Hsame]. split; [|done].
    rewrite Hsame. destruct (rank_of g v); [|done]. by rewrite decide_True.
  - destruct (add_answer_rank_step g v w Hg)
      as [[Hn Hsame]|(p & p' & Hp & Hp' & _ & _ & Hr & Hr' & Hn & _)].
    + left. split; [|done]. rewrite Hsame.
      destruct (rank_of g v); [|done]. by rewrite decide_True.
    + right. split; [|done]. unfold rank_of. rewrite Hp, Hp'. simpl.
      rewrite decide_False; [by rewrite Hr'|].
      pose proof (next_rank_positive g Hg). lia.
Qed.

Lemma next_rank_run g cs :
  ranks_consistent g → Game.next_rank g ≤ Game.next_rank (run g cs).
Proof.
  revert g. induction cs as [|c cs IH]; intros g Hg; simpl; [lia|].
  specialize (IH (step g c) (ranks_consistent_step g c Hg)).
  destruct (handed_by_step g c Hg) as [[_ Hn]|[_ Hn]]; lia.
Qed.

Lemma handed_run g cs :
  ranks_consistent g →
  handed g cs
  = seqZ (Game.next_rank g) (Game.next_rank (run g cs) - Game.next_rank g).
Proof.
  revert g. induction cs as [|c cs IH]; intros g Hg; simpl.
  - by rewrite Z.sub_diag.
  - pose proof (ranks_consistent_step g c Hg) as Hg'.
    pose proof (next_rank_run (step g c) cs Hg') as Hle.
    rewrite (IH _ Hg').
    destruct (handed_by_step g c Hg) as [[-> Hn]|[-> Hn]]; rewrite Hn.
    + done.
    + simpl. rewrite (seqZ_cons (Game.next_rank g)) by lia.
      do 2 f_equal; lia.
Qed.

Lemma rank_of_frozen g u r cs :
  ranks_consistent g → rank_of g u = Some r → r ≠ -1 →
  rank_of (run g cs) u = Some r.
Proof.
  unfold rank_of. intros Hg Hu Hr.
  destruct (Game.players g !! u) as [p|] eqn:Hp; [|done].
  simpl in Hu. injection Hu as <-.
  destruct (rank_range g Hg u p Hp) as [?|[_ Hf]]; [done|].
  by rewrite (run_over_frozen g cs u p Hp (over_found p Hf)).
Qed.
End rank_facts.

(** C3. Along every sequence of calls on a session (guesses, and joins and
    departures between them), the ranks handed out are 1, 2, 3, ... in this
    order, up to [next_rank - 1]; a rank belongs to one player; a rank, once
    set, stays; a call moves no rank but its caller's; and one [add_answer]
    either moves no rank, or gives the
    current [next_rank] to the caller, who was unranked and had not found the
    word before the call and has found it after, and adds one to
    [next_rank]. *)
Theorem ranks_handed_in_order `{Unidecode, Unicode}
    (d : Dictionary.t) (hidden : str) (users : list N) (cs : list call) :
  let g0 := Game.init d hidden users in
  let g := run g0 cs in
  handed g0 cs = seqZ 1 (Game.next_rank g - 1)
  ∧ (∀ u r, rank_of g u = Some r → r = -1 ∨ 1 ≤ r < Game.next_rank g)
  ∧ (∀ u v r, rank_of g u = Some r → rank_of g v = Some r → r ≠ -1 → u = v)
  ∧ (∀ u r cs', rank_of g u = Some r → r ≠ -1 →
       rank_of (run g cs') u = Some r)
  ∧ (∀ c u, caller c ≠ u → rank_of (step g c) u = rank_of g u)
  ∧ (∀ u w,
       let g' := (Game.add_answer g u w).1 in
       (Game.next_rank g' = Game.next_rank g
        ∧ ∀ v, rank_of g' v = rank_of g v)
       ∨ (∃ p p',
            Game.players g !! u = Some p ∧ Game.players g' !! u = Some p'
            ∧ Player.found p = false ∧ Player.found p' = true
            ∧ Player.rank p = -1 ∧ Player.rank p' = Game.next_rank g
            ∧ Game.next_rank g' = Game.next_rank g + 1
            ∧ ∀ v, v ≠ u → Game.players g' !! v = Game.players g !! v)).
Proof.
  intros g0 g.
  pose proof (ranks_consistent_init d hidden users) as Hg0.
  pose proof (ranks_consistent_run g0 cs Hg0) as Hg.
  repeat split.
  - subst g. by rewrite (handed_run g0 cs Hg0).
  - unfold rank_of. intros u r Hu.
    destruct (Game.players g !! u) as [p|] eqn:Hp; [|done].
    injection Hu as <-.
    destruct (rank_range g Hg u p Hp) as [?|[? _]]; [by left|by right].
  - unfold rank_of. intros u v r Hu Hv Hr.
    destruct (Game.players g !! u) as [p|] eqn:Hp; [|done].
    destruct (Game.players g !! v) as [q|] eqn:Hq; [|done].
    injection Hu as <-. injection Hv as Hv.
    by apply (rank_unique g Hg u v p q).
  - intros u r cs' Hu Hr. by apply rank_of_frozen.
  - intros c u Hc. unfold rank_of. by rewrite step_other.
  - intros u w. by apply add_answer_rank_step.
Qed.

Lemma ranks_handed_in_order_witness :
  handed (H := ascii_only_unidecode) (H0 := ascii_unicode) sample_game
    [AddAnswer 1 (py "Chou"); AddAnswer 2 (py "chat"); AddAnswer 2 (py "chou");
     AddAnswer 1 (py "chat")]
  = [1; 2].
Proof.
  rewrite (proj1 (@ranks_handed_in_order ascii_only_unidecode ascii_unicode
                    sample_dictionary (py "chat") [1; 2]%N _)).
  vm_compute. reflexivity.
Defined.

(** ** Rejected guesses *)

(** C4. A rejected [add_answer] returns the game it was given: no player, no
    history, no letter, no rank and no [next_rank] has changed. The checks
    come in a fixed order, each reached only when the earlier ones passed:
    unknown user, player already over, word too short, word too long, word
    not in the dictionary; the three last refusals carry three different
    messages, and a guess that passes them all is accepted. *)
Theorem add_answer_rejected `{Unidecode, Unicode}
    (g : Game.t) (user : N) (word : str) :
  let r := Game.add_answer g user word in
  let w := Dictionary.normalize word in
  let L := length (Game.hidden_word g) in
  (r.2.1 = false → r.1 = g)
  ∧ (Game.players g !! user = None → r = (g, (false, None)))
  ∧ (∀ p, Game.players g !! user = Some p →
       (Player.over p = true → r = (g, (false, None)))
       ∧ (Player.over p = false →
            ((length w < L)%nat → r = (g, (false, Some Game.too_short)))
            ∧ ((L < length w)%nat → r = (g, (false, Some Game.too_long)))
            ∧ (length w = L →
                 (Dictionary.contains (Game.dictionary g) w = false →
                    r = (g, (false, Some Game.not_in_dictionary)))
                 ∧ (Dictionary.contains (Game.dictionary g) w = true →
                      r.2 = (true, None)))))
  ∧ Game.too_short ≠ Game.too_long
  ∧ Game.too_short ≠ Game.not_in_dictionary
  ∧ Game.too_long ≠ Game.not_in_dictionary.
Proof.
  intros r w L. subst r w L. split; [apply add_answer_rejected_unchanged|].
  split; [|split]; [| |by vm_compute].
  - unfold Game.add_answer. by intros ->.
  - intros p Hp. unfold Game.add_answer. rewrite Hp. split.
    + by intros ->.
    + intros ->. simpl. split; [|split].
      * intros Hlt. by rewrite decide_True.
      * intros Hgt. rewrite decide_False by lia. by rewrite decide_True.
      * intros Heq. rewrite !decide_False by lia. split.
        -- by intros ->.
        -- by intros ->.
Qed.

Lemma add_answer_rejected_witness :
  let add_answer :=
    Game.add_answer (H := ascii_only_unidecode) (H0 := ascii_unicode) in
  add_answer sample_game 1%N (py "chiens")
  = (sample_game, (false, Some Game.too_long))
  ∧ add_answer sample_game 1%N (py "chut")
    = (sample_game, (false, Some Game.not_in_dictionary))
  ∧ add_answer sample_game 3%N (py "chat") = (sample_game, (false, None)).
Proof.
  pose proof (@add_answer_rejected ascii_only_unidecode ascii_unicode
                sample_game 1%N (py "chiens")) as (_ & _ & Hlong & _).
  pose proof (@add_answer_rejected ascii_only_unidecode ascii_unicode
                sample_game 1%N (py "chut")) as (_ & _ & Hnot & _).
  pose proof (@add_answer_rejected ascii_only_unidecode ascii_unicode
                sample_game 3%N (py "chat")) as (_ & Hnone & _).
  split; [|split].
  - apply (Hlong (Player.init 1 (py "chat"))); [by vm_compute|by vm_compute|].
    vm_compute. lia.
  - apply (Hnot (Player.init 1 (py "chat"))); by vm_compute.
  - apply Hnone. by vm_compute.
Defined.

(** ** Joining and leaving *)

Section join_leave_facts.
Context `{Unidecode, Unicode}.
Implicit Types (g : Game.t) (u v : N) (p q : Player.t) (w : str).

Lemma game_not_over g u p :
  Game.players g !! u = Some p → Player.over p = false → Game.over g = false.
Proof.
  intros Hu Hover. unfold Game.over.
  destruct (forallb _ _) eqn:Hall; [|done].
  rewrite forallb_forall in Hall. rewrite <- Hover. symmetry. apply Hall.
  apply list_elem_of_In, list_elem_of_fmap. exists (u, p).
  split; [done|]. by apply elem_of_map_to_list.
Qed.

Lemma remove_player_rejects g u :
  (Game.remove_player g u).2 = false
  ↔ Game.players g !! u = None
    ∨ ∃ p, Game.players g !! u = Some p ∧ Player.over p = true.
Proof.
  unfold Game.remove_player.
  destruct (Game.players g !! u) as [p|] eqn:Hu; [|naive_solver].
  destruct (Player.over p) eqn:Hover; simpl; [naive_solver|].
  split; [done|]. intros [?|(q & [= <-] & ?)]; congruence.
Qed.

Lemma remove_player_accepted g u :
  ranks_consistent g → (Game.remove_player g u).2 = true →
  ∃ p, Game.players (Game.remove_player g u).1 !! u = Some p
       ∧ Player.left p = true ∧ Player.rank p = -1.
Proof.
  intros Hg. unfold Game.remove_player.
  destruct (Game.players g !! u) as [p|] eqn:Hu; [|done].
  destruct (Player.over p) eqn:Hover; [done|]. intros _. simpl.
  exists (Player.set_left true p). rewrite lookup_insert_eq.
  repeat split. simpl. by apply (unranked_while_playing g u p).
Qed.
End join_leave_facts.

(** C10. [add_player] refuses a user exactly when the user is already in the
    game. For any other user, whatever the state of the game, it returns
    [True] and adds a new player, unranked, with the first letter only, and
    leaves the others as they are; when the word has two letters or more the
    new player still has to find it, so a game that was over is no longer
    over. *)
Theorem add_player_fresh_only (g : Game.t) (user : N) :
  let r := Game.add_player g user in
  (r.2 = false ↔ is_Some (Game.players g !! user))
  ∧ (r.2 = false → r.1 = g)
  ∧ (Game.players g !! user = None →
       r.2 = true
       ∧ Game.players r.1 !! user
         = Some (Player.init user (Game.hidden_word g))
       ∧ (∀ v, v ≠ user → Game.players r.1 !! v = Game.players g !! v)
       ∧ Game.next_rank r.1 = Game.next_rank g
       ∧ ((2 ≤ length (Game.hidden_word g))%nat → Game.over r.1 = false)).
Proof.
  intros r. subst r. unfold Game.add_player.
  destruct (Game.players g !! user) as [p|] eqn:Hu; simpl.
  - split; [|done]. split; [by eauto|done].
  - split; [|split; [done|]].
    + split; [done|]. by intros [? ?].
    + intros _. rewrite lookup_insert_eq. repeat split.
      * intros v Hv. by rewrite lookup_insert_ne.
      * intros Hlen.
        apply (game_not_over _ user (Player.init user (Game.hidden_word g))).
        -- simpl. by rewrite lookup_insert_eq.
        -- by apply over_init.
Qed.

Lemma add_player_fresh_only_witness :
  let g := run (H := ascii_only_unidecode) (H0 := ascii_unicode) sample_game
             [AddAnswer 1 (py "chat"); RemovePlayer 2] in
  Game.over g = true
  ∧ (Game.add_player g 3).2 = true
  ∧ Game.over (Game.add_player g 3).1 = false
  ∧ (Game.add_player g 1).2 = false.
Proof.
  intros g.
  pose proof (add_player_fresh_only g 3) as (_ & _ & Hfresh).
  pose proof (add_player_fresh_only g 1) as (Htaken & _).
  destruct Hfresh as (Hret & _ & _ & _ & Hopen); [by vm_compute|].
  split; [by vm_compute|]. split; [exact Hret|]. split.
  - apply Hopen. vm_compute. lia.
  - apply Htaken. vm_compute. by eexists.
Defined.

(** C7. [remove_player] changes no rank and not [next_rank]; it refuses
    exactly an unknown user and a player who is over, and then changes
    nothing. Once it has accepted, whatever calls follow, the player is still
    marked as having left, with rank -1, and each of the player's guesses is
    refused without any change. *)
Theorem remove_player_never_ranks `{Unidecode, Unicode}
    (g : Game.t) (user : N) :
  reachable g →
  let r := Game.remove_player g user in
  (Game.next_rank r.1 = Game.next_rank g ∧ ∀ v, rank_of r.1 v = rank_of g v)
  ∧ (r.2 = false
     ↔ Game.players g !! user = None
       ∨ ∃ p, Game.players g !! user = Some p ∧ Player.over p = true)
  ∧ (r.2 = false → r.1 = g)
  ∧ (r.2 = true → ∀ cs,
       (∃ p, Game.players (run r.1 cs) !! user = Some p
             ∧ Player.left p = true ∧ Player.rank p = -1)
       ∧ ∀ w, Game.add_answer (run r.1 cs) user w = (run r.1 cs, (false, None))).
Proof.
  intros Hreach r. subst r.
  split; [apply remove_player_ranks|]. split; [apply remove_player_rejects|].
  split.
  - unfold Game.remove_player.
    destruct (Game.players g !! user); [|done]. by destruct (Player.over _).
  - intros Hacc cs.
    destruct (remove_player_accepted g user (reachable_consistent g Hreach) Hacc)
      as (p & Hp & Hleft & Hrank).
    pose proof (run_over_frozen _ cs user p Hp (over_left p Hleft)) as Hrun.
    split; [by exists p|].
    intros w. unfold Game.add_answer. by rewrite Hrun, (over_left p Hleft).
Qed.

Lemma sample_game_reachable :
  reachable (H := ascii_only_unidecode) (H0 := ascii_unicode) sample_game.
Proof.
  exists sample_dictionary, (py "chat"), [1; 2]%N, [].
  split; [|done]. simpl. apply list_elem_of_here.
Qed.

Lemma remove_player_never_ranks_witness :
  let g := (Game.remove_player sample_game 2).1 in
  rank_of (run (H := ascii_only_unidecode) (H0 := ascii_unicode) g
             [AddAnswer 2 (py "chat"); AddPlayer 2; AddAnswer 1 (py "chat")]) 2
  = Some (-1).
Proof.
  intros g.
  pose proof (@remove_player_never_ranks ascii_only_unidecode ascii_unicode
                sample_game 2 sample_game_reachable) as (_ & _ & _ & Hleft).
  destruct (Hleft ltac:(by vm_compute)
              [AddAnswer 2 (py "chat"); AddPlayer 2; AddAnswer 1 (py "chat")])
    as [(p & Hp & _ & Hrank) _].
  unfold rank_of, g. rewrite Hp. simpl. by rewrite Hrank.
Defined.

(** ** The ranking *)

#[global] Instance key_le_transitive g : Transitive (Game.key_le g).
Proof. unfold Game.key_le. intros p q r. lia. Qed.

#[global] Instance key_le_total g : Total (Game.key_le g).
Proof. unfold Game.key_le. intros p q. lia. Qed.

Lemma StronglySorted_lookup {A} (R : relation A) (l : list A) i j x y :
  StronglySorted R l → (i < j)%nat →
  l !! i = Some x → l !! j = Some y → R x y.
Proof.
  intros Hl. revert i j. induction Hl as [|a l Hl IH Ha]; intros i j Hij Hi Hj.
  - done.
  - destruct j as [|j]; [lia|]. destruct i as [|i]; simpl in *.
    + injection Hi as <-. rewrite Forall_forall in Ha.
      apply Ha. by eapply list_elem_of_lookup_2.
    + apply (IH i j); [lia|done|done].
Qed.

Section ranking_facts.
Context `{Unidecode, Unicode}.
Implicit Types (g : Game.t) (p q : Player.t).

Lemma sorted_player_plays g p i :
  Game.get_sorted_players g !! i = Some p →
  ∃ u, Game.players g !! u = Some p.
Proof.
  intros Hi. apply list_elem_of_lookup_2 in Hi.
  unfold Game.get_sorted_players in Hi.
  rewrite merge_sort_Permutation in Hi.
  apply list_elem_of_fmap in Hi as ([u p'] & -> & Hi).
  exists u. by apply elem_of_map_to_list.
Qed.

Lemma sorted_players_keys g i j p q :
  Game.get_sorted_players g !! i = Some p →
  Game.get_sorted_players g !! j = Some q →
  (i < j)%nat → Game.sort_key g p ≤ Game.sort_key g q.
Proof.
  intros Hi Hj Hij.
  apply (StronglySorted_lookup (Game.key_le g)
           (Game.get_sorted_players g) i j p q); try done.
  apply StronglySorted_merge_sort; apply _.
Qed.
End ranking_facts.

(** C6. In every state of a session, [get_sorted_players] returns all the
    players, each once, in ascending order of the key: the rank when it is
    positive, the current [next_rank] otherwise. The ranked players are in
    ascending order of rank, and every ranked player comes before every
    unranked one. *)
Theorem get_sorted_players_ranked_first `{Unidecode, Unicode} (g : Game.t) :
  reachable g →
  let l := Game.get_sorted_players g in
  l ≡ₚ (map_to_list (Game.players g)).*2
  ∧ (∀ p, Player.rank p ≤ 0 → Game.sort_key g p = Game.next_rank g)
  ∧ (∀ p, 0 < Player.rank p → Game.sort_key g p = Player.rank p)
  ∧ (∀ i j p q, l !! i = Some p → l !! j = Some q → (i < j)%nat →
       Game.sort_key g p ≤ Game.sort_key g q)
  ∧ (∀ i j p q, l !! i = Some p → l !! j = Some q → (i < j)%nat →
       0 < Player.rank p → 0 < Player.rank q → Player.rank p ≤ Player.rank q)
  ∧ (∀ i j p q, l !! i = Some p → l !! j = Some q →
       0 < Player.rank p → Player.rank q ≤ 0 → (i < j)%nat).
Proof.
  intros Hreach l. subst l.
  pose proof (reachable_consistent g Hreach) as Hg.
  assert (∀ p, Player.rank p ≤ 0 → Game.sort_key g p = Game.next_rank g) as Hun.
  { intros p Hp. unfold Game.sort_key. by rewrite decide_False by lia. }
  assert (∀ p, 0 < Player.rank p → Game.sort_key g p = Player.rank p) as Hrk.
  { intros p Hp. unfold Game.sort_key. by rewrite decide_True by lia. }
  split; [|split; [done|split; [done|split; [|split]]]].
  - apply merge_sort_Permutation.
  - apply sorted_players_keys.
  - intros i j p q Hi Hj Hij Hp Hq.
    pose proof (sorted_players_keys g i j p q Hi Hj Hij) as Hle.
    by rewrite !Hrk in Hle.
  - intros i j p q Hi Hj Hp Hq.
    destruct (sorted_player_plays g p i Hi) as [u Hu].
    destruct (rank_range g Hg u p Hu) as [?|[Hlt _]]; [lia|].
    destruct (lt_eq_lt_dec i j) as [[?| ->]|Hji]; [done| |].
    + rewrite Hi in Hj. injection Hj as <-. lia.
    + pose proof (sorted_players_keys g j i q p Hj Hi Hji) as Hle.
      rewrite Hun, Hrk in Hle by done. lia.
Qed.

Lemma get_sorted_players_ranked_first_witness :
  let g := run (H := ascii_only_unidecode) (H0 := ascii_unicode) sample_game
             [AddPlayer 3; AddAnswer 3 (py "chat"); AddAnswer 2 (py "chat")] in
  Player.rank <$> Game.get_sorted_players g = [1; 2; -1]
  ∧ ∀ i j p q,
      Game.get_sorted_players g !! i = Some p →
      Game.get_sorted_players g !! j = Some q →
      0 < Player.rank p → Player.rank q ≤ 0 → (i < j)%nat.
Proof.
  intros g. split; [by vm_compute|].
  apply (@get_sorted_players_ranked_first ascii_only_unidecode ascii_unicode g).
  apply reachable_run, sample_game_reachable.
Defined.

(** ** Scoring words of different lengths *)

(** C9, amended. [Answer.check] returns on every pair of words: it scores the
    positions that both words have and returns that many classifications.
    Words of different lengths are stopped before, by [Game.add_answer],
    which refuses a guess whose normalised length is not the length of the
    hidden word and changes nothing. *)
Theorem check_any_lengths `{Unidecode, Unicode} :
  (∀ word hidden_word,
     length (Answer.check word hidden_word)
     = (length word `min` length hidden_word)%nat)
  ∧ (∀ g user word,
       length (Dictionary.normalize word) ≠ length (Game.hidden_word g) →
       (Game.add_answer g user word).2.1 = false
       ∧ (Game.add_answer g user word).1 = g).
Proof.
  split; [apply length_check|].
  intros g user word Hlen.
  destruct (add_answer_cases g user word) as [[? ?]|(p & _ & _ & Heq & _)]; done.
Qed.

Lemma check_any_lengths_witness :
  length (Answer.check (py "ab") (py "abc")) = 2%nat
  ∧ (Game.add_answer (H := ascii_only_unidecode) (H0 := ascii_unicode)
       sample_game 1 (py "ch")).2.1 = false.
Proof.
  pose proof (@check_any_lengths ascii_only_unidecode ascii_unicode)
    as [Hlen Hguard].
  split.
  - by rewrite Hlen.
  - apply Hguard. vm_compute. lia.
Defined.

(** ** Text *)

Section text_facts.
Implicit Types (s t : str) (n : Z) (c : N).

Lemma readline_line s t :
  Text.newline ∉ s →
  Text.readline (s ++ Text.newline :: t) = (s ++ [Text.newline], t).
Proof.
  induction s as [|c s IH]; intros Hs; simpl.
  - done.
  - rewrite decide_False by (intros ->; apply Hs, list_elem_of_here).
    rewrite IH; [done|]. intros Hin. by apply Hs, list_elem_of_further.
Qed.

Lemma ascii_string_py (a : string) :
  Forall is_ascii (py a) → Text.ascii_string (py a) = Some a.
Proof.
  induction a as [|x a IH]; simpl; [done|].
  intros Ha. apply Forall_cons in Ha as [Hx Ha].
  rewrite decide_True by done. rewrite IH by done. simpl.
  by rewrite ascii_N_embedding.
Qed.

Lemma digits_of_uint d :
  Forall (λ c, (48 ≤ c ≤ 57)%N) (py (NilEmpty.string_of_uint d)).
Proof.
  induction d; simpl; try constructor; try done; simpl; lia.
Qed.

(** The text of an integer: digits, after a minus sign when negative. *)
Lemma str_of_int_chars n :
  Forall (λ c, (c = 45 ∨ 48 ≤ c ≤ 57)%N) (Text.str_of_int n).
Proof.
  assert (∀ d, Forall (λ c, (c = 45 ∨ 48 ≤ c ≤ 57)%N)
                 (py (NilZero.string_of_uint d))) as Hu.
  { intros d. destruct d; simpl;
      try (constructor; [right; simpl; lia|]);
      try (eapply Forall_impl; [apply digits_of_uint|]; simpl; intros; lia).
    constructor. }
  unfold Text.str_of_int. destruct (Z.to_int n) as [d|d]; simpl.
  - apply Hu.
  - constructor; [by left|apply Hu].
Qed.

Lemma lstrip_plain s :
  Forall (λ c, Text.isspace c = false) s → Text.lstrip s = s.
Proof. destruct 1 as [|c s Hc _]; simpl; [done|]. by rewrite Hc. Qed.

Lemma strip_line s :
  Forall (λ c, Text.isspace c = false) s →
  Text.strip s = s ∧ Text.strip (s ++ [Text.newline]) = s.
Proof.
  intros Hs. unfold Text.strip.
  assert (Text.lstrip (reverse s) = reverse s) as Hrev.
  { apply lstrip_plain. by apply Forall_reverse. }
  split.
  - by rewrite (lstrip_plain s), Hrev, reverse_involutive.
  - destruct s as [|c s].
    + done.
    + assert (Text.lstrip ((c :: s) ++ [Text.newline])
              = (c :: s) ++ [Text.newline]) as ->.
      { simpl. apply Forall_cons in Hs as [-> _]. done. }
      rewrite reverse_app. simpl (reverse [Text.newline] ++ _).
      change (Text.lstrip (Text.newline :: reverse (c :: s)))
        with (Text.lstrip (reverse (c :: s))).
      by rewrite Hrev, reverse_involutive.
Qed.

Lemma int_of_str_plain (a : string) d :
  Forall (λ c, (c = 45 ∨ 48 ≤ c ≤ 57)%N) (py a) →
  NilZero.int_of_string a = Some d →
  Text.int_of_str (py a) = Some (Z.of_int d)
  ∧ Text.int_of_str (py a ++ [Text.newline]) = Some (Z.of_int d).
Proof.
  intros Ha Hd.
  assert (Forall (λ c, Text.isspace c = false) (py a)) as Hsp.
  { eapply Forall_impl; [exact Ha|]. simpl. intros c Hc. unfold Text.isspace.
    repeat (apply orb_false_iff; split);
      rewrite ?andb_false_iff, ?N.leb_gt, ?N.eqb_neq; lia. }
  assert (Forall is_ascii (py a)) as Has.
  { eapply Forall_impl; [exact Ha|]. unfold is_ascii. simpl. lia. }
  destruct (strip_line (py a) Hsp) as [Hs1 Hs2].
  unfold Text.int_of_str. rewrite Hs1, Hs2.
  assert (match py a with
          | [] => None
          | c :: digits =>
              if decide (c = 43%N) then
                d ← Text.ascii_string digits ≫= NilZero.uint_of_string;
                Some (Z.of_uint d)
              else
                d ← Text.ascii_string (py a) ≫= NilZero.int_of_string;
                Some (Z.of_int d)
          end = Some (Z.of_int d)) as Hgoal; [|done].
  destruct (py a) as [|c digits] eqn:Hpy.
  - destruct a; [done|discriminate].
  - apply Forall_cons in Ha as [Hc _].
    rewrite decide_False by lia.
    rewrite <- Hpy, ascii_string_py by (by rewrite Hpy).
    simpl. by rewrite Hd.
Qed.

Lemma int_of_str_of_int n :
  Text.int_of_str (Text.str_of_int n) = Some n
  ∧ Text.int_of_str (Text.str_of_int n ++ [Text.newline]) = Some n.
Proof.
  rewrite <- (DecimalZ.of_to n) at 2 4.
  apply int_of_str_plain; [apply str_of_int_chars|].
  apply NilZero.isi; destruct n; simpl; try done;
    intros [= Hp]; by apply DecimalPos.Unsigned.to_uint_nonnil in Hp.
Qed.

#[global] Instance str_of_int_inj : Inj (=) (=) Text.str_of_int.
Proof.
  intros n m Hnm.
  pose proof (proj1 (int_of_str_of_int n)) as Hn.
  rewrite Hnm, (proj1 (int_of_str_of_int m)) in Hn. congruence.
Qed.

Lemma str_of_int_one_line n : Text.newline ∉ Text.str_of_int n.
Proof.
  intros Hin. pose proof (str_of_int_chars n) as Hc.
  rewrite Forall_forall in Hc. specialize (Hc _ Hin).
  unfold Text.newline in Hc. lia.
Qed.
End text_facts.

(** ** The records of the statistics *)

Lemma tally_json_laws : @JsonLaws tally_json.
Proof.
  split; simpl.
  - intros m.
    assert (filter (λ c, c = 120%N) (replicate (encode_nat m) 120%N)
            = replicate (encode_nat m) 120%N) as ->.
    { induction (encode_nat m) as [|k IH]; [done|].
      simpl. by rewrite filter_cons, decide_True, IH. }
    rewrite length_replicate. apply decode_encode_nat.
  - intros s. rewrite filter_app. simpl.
    by rewrite filter_cons, decide_False, filter_nil, app_nil_r.
  - intros m Hin. by apply elem_of_replicate in Hin as [? _].
Qed.

Section stats_facts.
Context `{Json} {HJ : JsonLaws}.

Lemma mapM_fmap_elem_of {A B} (f : A → option B) (h : A → B) (l : list A) :
  (∀ x, x ∈ l → f x = Some (h x)) → mapM f l = Some (h <$> l).
Proof.
  intros Hf. apply mapM_Some, Forall2_fmap_r, Forall_Forall2_diag.
  by apply Forall_forall.
Qed.

(** The integer keys written by [json.dumps] are read back by [int]. *)
Lemma int_keys_dumped (m : gmap Z Z) :
  PlayerStats.int_keys (kmap Text.str_of_int m) = Some m.
Proof.
  unfold PlayerStats.int_keys.
  set (back := prod_map (λ s : str, default 0 (Text.int_of_str s)) (@id Z)).
  assert (back <$> map_to_list (kmap (M2 := gmap str) Text.str_of_int m)
          ≡ₚ map_to_list m) as Hperm.
  { rewrite map_to_list_kmap by apply _. rewrite <- list_fmap_compose.
    rewrite (list_fmap_ext _ id (map_to_list m)); [by rewrite list_fmap_id|].
    intros i [k v] _. unfold back. simpl.
    by rewrite (proj1 (int_of_str_of_int k)). }
  rewrite (mapM_fmap_elem_of _ back).
  - simpl. f_equal.
    rewrite <- (list_to_map_to_list m) at 2.
    apply list_to_map_proper; [|done].
    rewrite Hperm. apply NoDup_fst_map_to_list.
  - intros [s v] Hsv. apply elem_of_map_to_list in Hsv.
    apply lookup_kmap_Some in Hsv as (k & -> & _); [|apply _].
    unfold back. simpl. by rewrite (proj1 (int_of_str_of_int k)).
Qed.

Lemma player_stats_load_save (S : PlayerStats.t) filename fs :
  PlayerStats.load (PlayerStats.save S filename fs) filename = Some S.
Proof.
  unfold PlayerStats.load, PlayerStats.save. rewrite lookup_insert_eq.
  simpl. rewrite readline_line by apply json_dumps_one_line.
  rewrite json_loads_newline, json_loads_dumps. simpl.
  rewrite int_keys_dumped. simpl.
  rewrite readline_line by apply json_dumps_one_line.
  rewrite json_loads_newline, json_loads_dumps. simpl.
  rewrite (readline_line _ []) by apply str_of_int_one_line.
  rewrite (proj2 (int_of_str_of_int _)). simpl. by destruct S.
Qed.

Lemma games_stats_load_save (S : GamesStats.t) filename fs :
  GamesStats.load (GamesStats.save S filename fs) filename = Some S.
Proof.
  unfold GamesStats.load, GamesStats.save. rewrite lookup_insert_eq.
  simpl. rewrite readline_line by apply json_dumps_one_line.
  rewrite json_loads_newline, json_loads_dumps. simpl.
  rewrite (readline_line _ []) by apply str_of_int_one_line.
  rewrite (proj2 (int_of_str_of_int _)). simpl. by destruct S.
Qed.
End stats_facts.

(** C5. For every [PlayerStats] and every [GamesStats] object [S], the
    all-zero object included, [load] on the record that [save] wrote returns
    an object with the same counters and the same scalars as [S]; and [load]
    on a file name that has no file returns the all-zero object. *)
Theorem stats_round_trip `{Json} :
  JsonLaws →
  (∀ (S : PlayerStats.t) filename fs,
     PlayerStats.load (PlayerStats.save S filename fs) filename = Some S)
  ∧ (∀ (S : GamesStats.t) filename fs,
       GamesStats.load (GamesStats.save S filename fs) filename = Some S)
  ∧ (∀ filename (fs : files), fs !! filename = None →
       PlayerStats.load fs filename = Some PlayerStats.init
       ∧ GamesStats.load fs filename = Some GamesStats.init).
Proof.
  intros HJ. split; [|split].
  - apply player_stats_load_save.
  - apply games_stats_load_save.
  - intros filename fs Hnone. unfold PlayerStats.load, GamesStats.load.
    by rewrite Hnone.
Qed.

Lemma stats_round_trip_witness :
  let S := PlayerStats.update PlayerStats.init
             (scored (H := ascii_only_unidecode) (H0 := ascii_unicode)
                sample_game (Player.init 1 (py "chat")) (py "chat")) in
  PlayerStats.load (H := tally_json)
    (PlayerStats.save (H := tally_json) S (py "stats/1.txt") ∅) (py "stats/1.txt")
  = Some S
  ∧ GamesStats.load (H := tally_json) ∅ (py "stats/games.txt")
    = Some GamesStats.init.
Proof.
  intros S.
  pose proof (@stats_round_trip tally_json tally_json_laws) as (Hp & _ & Hnone).
  split; [apply Hp|]. by apply Hnone.
Defined.

(** * Further properties *)

(** ** Scoring, position by position *)

Section check_positions.
Implicit Types (word hidden : str) (counts : gmap N Z) (c : N).

Lemma classify_position H counts word hidden i c ty :
  word !! i = Some c →
  Answer.classify H counts (zip word hidden) !! i = Some ty →
  (ty = FOUND ↔ hidden !! i = Some c)
  ∧ (ty = EXIST → c ∈ H ∧ hidden !! i ≠ Some c)
  ∧ (c ∉ H → hidden !! i ≠ Some c → ty = WRONG).
Proof.
  revert hidden counts i.
  induction word as [|x word IH]; intros [|y hidden] counts i; try done.
  destruct i as [|i]; simpl.
  - intros [= ->]. repeat case_decide; intros [= <-]; subst;
      repeat split; try done; try congruence; try tauto.
  - repeat case_decide; simpl; apply IH.
Qed.

Lemma classify_all_found H counts word hidden :
  length word = length hidden →
  Answer.classify H counts (zip word hidden) = replicate (length hidden) FOUND
  ↔ word = hidden.
Proof.
  revert hidden counts.
  induction word as [|x word IH]; intros [|y hidden] counts Hlen; try done.
  simpl in *. injection Hlen as Hlen.
  repeat case_decide; subst; split; try done.
  - intros [= Hrest]. f_equal. by apply (IH hidden counts).
  - intros [= ->]. f_equal. by apply (IH hidden counts).
  - intros [= ? ?]. done.
  - intros [= ? ?]. done.
Qed.

Lemma occurrences_split c word hidden :
  (length word ≤ length hidden)%nat →
  occurrences c word
  = (matches_on c word hidden + misplaced_on c word hidden)%nat.
Proof.
  unfold occurrences, matches_on, misplaced_on. revert hidden.
  induction word as [|x word IH]; intros [|y hidden] Hlen; simpl in *;
    try done; try lia.
  rewrite !filter_cons. simpl. specialize (IH hidden ltac:(lia)).
  destruct (decide (x = c)) as [->|Hc]; destruct (decide (c = y)) as [->|Hy];
    repeat case_decide; simpl; try lia; try tauto; try congruence;
    exfalso; intuition congruence.
Qed.

(** The second loop credits [c] on its exact matches and then on the first
    misplaced occurrences, as many as [counts] still allows. *)
Lemma credited_classify_exact H counts word hidden c :
  (Counter.get counts c ≤ 0 ∨ c ∈ H) →
  Z.of_nat (credited c word (Answer.classify H counts (zip word hidden)))
  = Z.of_nat (matches_on c word hidden)
    + Z.of_nat (misplaced_on c word hidden) `min` (0 `max` Counter.get counts c).
Proof.
  unfold credited, matches_on, misplaced_on. revert hidden counts.
  induction word as [|x word IH]; intros [|y hidden] counts Hpre; simpl;
    try lia.
  rewrite !(filter_cons _ (x, y)). simpl.
  destruct (decide (x = y)) as [->|Hne].
  - simpl. rewrite filter_cons. simpl. specialize (IH hidden counts Hpre).
    rewrite (decide_False (P := y ≠ y ∧ y = c)) by tauto.
    destruct (decide (y = c)) as [->|Hc].
    + rewrite !decide_True by done. simpl. lia.
    + rewrite !decide_False by tauto. lia.
  - rewrite (decide_False (P := x = y ∧ x = c)) by tauto.
    case_decide as Hex; simpl; rewrite filter_cons; simpl.
    + specialize (IH hidden (Counter.add x (-1) counts)).
      rewrite get_add in IH.
      destruct (decide (x = c)) as [->|Hc].
      * rewrite decide_True in IH by done. rewrite !decide_True by done.
        destruct Hex as [Hin Hpos].
        specialize (IH (or_intror Hin)). simpl length. lia.
      * rewrite decide_False in IH by done. rewrite !decide_False by tauto.
        by apply IH.
    + specialize (IH hidden counts Hpre).
      destruct (decide (x = c)) as [->|Hc].
      * rewrite decide_False by (intros [_ ?]; done).
        rewrite decide_True by done. simpl.
        assert (Counter.get counts c ≤ 0) by (destruct Hpre; [done|]; tauto || lia).
        lia.
      * rewrite !decide_False by tauto. done.
Qed.
End check_positions.

(** X1. For words of equal length, the positions of the guess that hold [c]
    and are classified FOUND or EXIST are exactly as many as [c] occurs in
    the guess or in the hidden word, whichever is less. *)
Theorem check_credits_exactly (word hidden_word : str) (c : N) :
  length word = length hidden_word →
  credited c word (Answer.check word hidden_word)
  = (occurrences c word `min` occurrences c hidden_word)%nat.
Proof.
  intros Hlen. unfold Answer.check.
  pose proof (credited_classify_exact hidden_word
    (Answer.reserve (Counter.of_list hidden_word) (zip word hidden_word))
    word hidden_word c) as Hc.
  rewrite get_reserve, get_of_list in Hc.
  pose proof (matches_on_le_occurrences c word hidden_word) as Hm.
  pose proof (occurrences_split c word hidden_word ltac:(lia)) as Hs.
  fold (occurrences c hidden_word) in Hc.
  assert (Z.of_nat (occurrences c hidden_word)
          - Z.of_nat (matches_on c word hidden_word) ≤ 0 ∨ c ∈ hidden_word) as Hpre.
  { destruct (decide (c ∈ hidden_word)) as [?|Hnin]; [by right|left].
    assert (occurrences c hidden_word = 0%nat) as ->; [|lia].
    unfold occurrences. clear -Hnin. induction hidden_word as [|x h IH]; [done|].
    rewrite filter_cons, decide_False; [apply IH|]; set_solver. }
  specialize (Hc Hpre). lia.
Qed.

Lemma check_credits_exactly_witness :
  credited 114 (py "radar") (Answer.check (py "radar") (py "arbre")) = 2%nat
  ∧ credited 97 (py "radar") (Answer.check (py "radar") (py "arbre")) = 1%nat.
Proof.
  rewrite !(check_credits_exactly (py "radar") (py "arbre")) by reflexivity.
  split; reflexivity.
Defined.

(** X2. For words of equal length, every position is classified FOUND
    exactly when the guess is the hidden word. *)
Theorem check_all_found_iff (word hidden_word : str) :
  length word = length hidden_word →
  Answer.check word hidden_word = replicate (length hidden_word) FOUND
  ↔ word = hidden_word.
Proof. intros Hlen. by apply classify_all_found. Qed.

Lemma check_all_found_iff_witness :
  Answer.check (py "chat") (py "chat") = replicate 4 FOUND.
Proof. by apply (check_all_found_iff (py "chat") (py "chat")). Defined.

Lemma check_lookup (word hidden_word : str) (i : nat) (c : N)
    (ty : LetterType) :
  word !! i = Some c →
  Answer.check word hidden_word !! i = Some ty →
  (ty = FOUND ↔ hidden_word !! i = Some c)
  ∧ (ty = EXIST → c ∈ hidden_word ∧ hidden_word !! i ≠ Some c)
  ∧ (c ∉ hidden_word → ty = WRONG).
Proof.
  intros Hi Hty.
  destruct (classify_position _ _ _ _ _ _ _ Hi Hty) as (Hf & He & Hw).
  repeat split; try tauto.
  intros Hnin. apply Hw; [done|]. intros Hh. apply Hnin.
  by eapply list_elem_of_lookup_2.
Qed.

(** X3. At a position that holds the letter [c] of the guess: the
    classification is FOUND exactly when the hidden word has [c] there; EXIST
    only when the hidden word has [c], elsewhere; and WRONG whenever the
    hidden word has no [c] at all. *)
Theorem check_position (word hidden_word : str) (i : nat) (c : N)
    (ty : LetterType) :
  word !! i = Some c →
  Answer.check word hidden_word !! i = Some ty →
  (ty = FOUND ↔ hidden_word !! i = Some c)
  ∧ (ty = EXIST → c ∈ hidden_word ∧ hidden_word !! i ≠ Some c)
  ∧ (c ∉ hidden_word → ty = WRONG).
Proof. apply check_lookup. Qed.

Lemma check_position_witness :
  (EXIST = FOUND ↔ py "arbre" !! 4%nat = Some 114%N)
  ∧ (EXIST = EXIST → 114%N ∈ py "arbre" ∧ py "arbre" !! 4%nat ≠ Some 114%N)
  ∧ (114%N ∉ py "arbre" → EXIST = WRONG).
Proof.
  apply (check_position (py "radar") (py "arbre") 4 114 EXIST);
    by vm_compute.
Defined.

Lemma letters_found_lookup (word hidden_word : str) (i : nat) :
  (∀ c, Answer.get_letters_found (Answer.init word hidden_word) !! i
        = Some (Some c)
        ↔ word !! i = Some c ∧ hidden_word !! i = Some c)
  ∧ length (Answer.get_letters_found (Answer.init word hidden_word))
    = (length word `min` length hidden_word)%nat.
Proof.
  unfold Answer.get_letters_found, Answer.init. simpl. split.
  - intros c. rewrite list_lookup_fmap. split.
    + intros Hl. destruct (zip _ _ !! i) as [[x ty]|] eqn:Hz; [|done].
      apply lookup_zip_with_Some in Hz as (x' & ty' & [= <- <-] & Hx & Hty).
      simpl in Hl. case_decide as Hf; [|done]. injection Hl as ->. subst ty.
      split; [done|].
      by apply (check_lookup word hidden_word i c FOUND Hx Hty).
    + intros [Hx Hh].
      assert (is_Some (Answer.check word hidden_word !! i)) as [ty Hty].
      { apply lookup_lt_is_Some. rewrite length_check.
        apply lookup_lt_Some in Hx, Hh. lia. }
      assert (zip word (Answer.check word hidden_word) !! i = Some (c, ty)) as ->.
      { apply lookup_zip_with_Some. by exists c, ty. }
      simpl. rewrite decide_True; [done|].
      by apply (check_lookup word hidden_word i c ty Hx Hty).
  - rewrite length_fmap, length_zip, length_check. lia.
Qed.

(** X4. [get_letters_found] of the answer built from a guess shows the letter
    [c] at a position exactly when the guess and the hidden word both have
    [c] there, and has as many positions as the shorter of the two words. *)
Theorem get_letters_found_exact (word hidden_word : str) (i : nat) :
  (∀ c, Answer.get_letters_found (Answer.init word hidden_word) !! i
        = Some (Some c)
        ↔ word !! i = Some c ∧ hidden_word !! i = Some c)
  ∧ length (Answer.get_letters_found (Answer.init word hidden_word))
    = (length word `min` length hidden_word)%nat.
Proof. apply letters_found_lookup. Qed.

(** ** What a session keeps of each player *)

Section kept_facts.
Context `{Unidecode, Unicode}.
Implicit Types (g : Game.t) (u v : N) (p q : Player.t) (w : str).

Lemma revealed_init u hidden : revealed hidden (Player.init u hidden).
Proof.
  split; simpl.
  - apply length_imap.
  - intros i c. rewrite list_lookup_imap. split.
    + destruct (hidden !! i) as [x|] eqn:Hi; [|done]. simpl.
      case_decide; [|done]. intros [= ->]. by split; [|left].
    + intros [-> [->|(a & Ha & _)]]; simpl; [done|].
      by apply elem_of_nil in Ha.
Qed.

Lemma revealed_add_answer hidden p word :
  revealed hidden p → length word = length hidden →
  revealed hidden (Player.add_answer p word hidden).
Proof.
  intros [Hlen Hrev] Hw. split; simpl.
  - rewrite length_zip_with, (proj2 (letters_found_lookup word hidden 0)). lia.
  - intros i c. rewrite lookup_zip_with. split.
    + destruct (Player.letters p !! i) as [x|] eqn:Hx; [|done]. simpl.
      destruct (Answer.get_letters_found _ !! i) as [y|] eqn:Hy; [|done]. simpl.
      destruct x as [x|]; simpl.
      * intros [= ->]. apply Hrev in Hx as [Hh Hwhy]. split; [done|].
        destruct Hwhy as [->|(a & Ha & Hai)]; [by left|right].
        exists a. split; [|done]. apply elem_of_app. by left.
      * intros [= ->].
        apply (proj1 (letters_found_lookup word hidden i)) in Hy as [Hwi Hh].
        split; [done|]. right. exists (Answer.init word hidden).
        split; [|done]. apply elem_of_app. right. apply list_elem_of_here.
    + intros [Hh Hwhy].
      assert (i < length hidden)%nat as Hi by (by eapply lookup_lt_Some).
      destruct (lookup_lt_is_Some_2 (Player.letters p) i ltac:(lia)) as [x Hx].
      destruct (lookup_lt_is_Some_2
                  (Answer.get_letters_found (Answer.init word hidden)) i) as [y Hy].
      { rewrite (proj2 (letters_found_lookup word hidden 0)). lia. }
      rewrite Hx, Hy. simpl. f_equal.
      destruct x as [x|]; simpl.
      * apply Hrev in Hx as [Hx _]. congruence.
      * destruct Hwhy as [->|(a & Ha & Hai)].
        -- assert (Player.letters p !! 0%nat = Some (Some c)) as Hc
             by (apply Hrev; split; [done|by left]).
           congruence.
        -- apply elem_of_app in Ha as [Ha|Ha].
           ++ assert (Player.letters p !! i = Some (Some c)) as Hc
                by (apply Hrev; split; [done|right; by exists a]).
              congruence.
           ++ apply list_elem_of_singleton in Ha as ->. simpl in Hai.
              assert (Answer.get_letters_found (Answer.init word hidden) !! i
                      = Some (Some c)) as Hc
                by (by apply (proj1 (letters_found_lookup word hidden i))).
              congruence.
Qed.

Lemma players_consistent_init d hidden users :
  players_consistent (Game.init d hidden users).
Proof.
  split.
  - intros u p Hu. by apply init_player in Hu as ->.
  - intros u p Hu. apply init_player in Hu as ->. apply revealed_init.
  - intros u p a Hu Ha. apply init_player in Hu as ->.
    by apply elem_of_nil in Ha.
  - intros u p Hu. by apply init_player in Hu as ->.
Qed.

Lemma players_consistent_update g g' :
  players_consistent g →
  Game.hidden_word g' = Game.hidden_word g →
  Game.dictionary g' = Game.dictionary g →
  (∀ u p, Game.players g' !! u = Some p →
     Game.players g !! u = Some p
     ∨ (Player.mention p = u ∧ revealed (Game.hidden_word g) p
        ∧ (∀ a, a ∈ Player.answers p → recorded g a)
        ∧ (Player.rank p ≠ -1 → Player.answers p ≠ []))) →
  players_consistent g'.
Proof.
  intros [Hk Hr Hh Hra] Hhw Hd Hps. split.
  - intros u p Hu. destruct (Hps u p Hu) as [?|(? & _)]; eauto.
  - intros u p Hu. rewrite Hhw. destruct (Hps u p Hu) as [?|(_ & ? & _)]; eauto.
  - intros u p a Hu Ha. unfold recorded. rewrite Hhw, Hd.
    destruct (Hps u p Hu) as [?|(_ & _ & Hrec & _)];
      [by eapply Hh|by apply Hrec].
  - intros u p Hu. destruct (Hps u p Hu) as [?|(_ & _ & _ & ?)]; eauto.
Qed.

Lemma players_consistent_step g c :
  players_consistent g → players_consistent (step g c).
Proof.
  intros Hg. pose proof Hg as [Hk Hr Hh Hra]. destruct c as [v|v|v w]; simpl.
  - unfold Game.add_player.
    destruct (Game.players g !! v) as [p0|] eqn:Hv; [done|].
    apply (players_consistent_update g); simpl; try done.
    intros u p. rewrite lookup_insert. case_decide; [|by left].
    subst u. intros [= <-]. right. split; [done|]. split; [apply revealed_init|].
    split; [|done]. intros a Ha. by apply elem_of_nil in Ha.
  - unfold Game.remove_player.
    destruct (Game.players g !! v) as [p0|] eqn:Hv; [|done].
    destruct (Player.over p0); [done|].
    apply (players_consistent_update g); simpl; try done.
    intros u p. rewrite lookup_insert. case_decide; [|by left].
    subst u. intros [= <-]. right. simpl.
    split; [by eapply Hk|]. split; [exact (Hr _ _ Hv)|].
    split; [|exact (Hra _ _ Hv)]. intros a Ha. by eapply Hh.
  - destruct (add_answer_cases g v w) as [[-> _]|[p0 Hacc]]; [done|].
    rewrite (add_answer_accepted _ _ _ _ Hacc).
    destruct Hacc as (Hv & _ & Hlen & Hin).
    assert (Player.mention (scored g p0 w) = v
            ∧ revealed (Game.hidden_word g) (scored g p0 w)
            ∧ ∀ a, a ∈ Player.answers (scored g p0 w) → recorded g a)
      as (Hm & Hrev & Hrec).
    { split; [exact (Hk _ _ Hv)|]. split.
      - apply revealed_add_answer; [exact (Hr _ _ Hv)|done].
      - simpl. intros a Ha. apply elem_of_app in Ha as [Ha|Ha]; [by eapply Hh|].
        apply list_elem_of_singleton in Ha as ->.
        repeat split; simpl; try done. by eexists. }
    destruct (Player.found (scored g p0 w));
      apply (players_consistent_update g); simpl; try done;
      intros u p; rewrite lookup_insert; (case_decide; [|by left]);
      subst u; intros [= <-]; right;
      (split; [exact Hm|split; [exact Hrev|split; [exact Hrec|]]]);
      intros _; simpl; by destruct (Player.answers p0).
Qed.

Lemma players_consistent_run g cs :
  players_consistent g → players_consistent (run g cs).
Proof.
  revert g. induction cs as [|c cs IH]; intros g Hg; [done|].
  simpl. by apply IH, players_consistent_step.
Qed.

Lemma reachable_players_consistent g : reachable g → players_consistent g.
Proof.
  intros (d & hidden & users & cs & _ & ->).
  apply players_consistent_run, players_consistent_init.
Qed.

Lemma found_revealed hidden p :
  revealed hidden p →
  Player.found p = true ↔ Player.letters p = Some <$> hidden.
Proof.
  intros [Hlen Hrev]. unfold Player.found. rewrite bool_decide_eq_true. split.
  - intros Hnone. apply list_eq_same_length with (length hidden);
      [by rewrite length_fmap|done|].
    intros i x y Hi Hx Hy. rewrite list_lookup_fmap in Hy.
    destruct (hidden !! i) as [c|] eqn:Hc; [|done]. injection Hy as <-.
    destruct x as [x|]; [|by apply list_elem_of_lookup_2 in Hx].
    apply Hrev in Hx as [Hx _]. congruence.
  - intros -> Hin. by apply list_elem_of_fmap in Hin as (? & ? & _).
Qed.
End kept_facts.

Section progress_facts.
Context `{Unidecode, Unicode}.
Implicit Types (g : Game.t) (u v : N) (p q : Player.t) (w : str).

Lemma dictionary_step g c : Game.dictionary (step g c) = Game.dictionary g.
Proof.
  destruct c as [v|v|v w]; simpl.
  - unfold Game.add_player. by destruct (Game.players g !! v).
  - unfold Game.remove_player. destruct (Game.players g !! v); [|done].
    by destruct (Player.over _).
  - destruct (add_answer_cases g v w) as [[-> _]|[p Hacc]]; [done|].
    rewrite (add_answer_accepted _ _ _ _ Hacc). simpl.
    by destruct (Player.found _).
Qed.

Lemma word_and_dictionary_run g cs :
  Game.hidden_word (run g cs) = Game.hidden_word g
  ∧ Game.dictionary (run g cs) = Game.dictionary g.
Proof.
  revert g. induction cs as [|c cs IH]; intros g; [done|]. simpl.
  destruct (IH (step g c)) as [-> ->].
  by rewrite hidden_word_step, dictionary_step.
Qed.

(** One call keeps every player, with a history that extends the old one. *)
Lemma step_keeps_player g c u p :
  Game.players g !! u = Some p →
  ∃ p', Game.players (step g c) !! u = Some p'
        ∧ Player.answers p `prefix_of` Player.answers p'
        ∧ (Player.left p = true → Player.left p' = true).
Proof.
  intros Hu. destruct (decide (caller c = u)) as [Hc|Hc]; last first.
  { exists p. by rewrite step_other. }
  destruct c as [v|v|v w]; simpl in *; subst v.
  - unfold Game.add_player. rewrite Hu. by exists p.
  - unfold Game.remove_player. rewrite Hu.
    destruct (Player.over p); [by exists p|]. simpl.
    exists (Player.set_left true p). by rewrite lookup_insert_eq.
  - destruct (add_answer_cases g u w) as [[-> _]|[p0 Hacc]]; [by exists p|].
    rewrite (add_answer_accepted _ _ _ _ Hacc).
    destruct Hacc as (Hu' & _). rewrite Hu in Hu'. injection Hu' as <-.
    destruct (Player.found (scored g p w)); simpl; rewrite lookup_insert_eq;
      eexists; (split; [done|]); simpl; (split; [by apply prefix_app_r|done]).
Qed.

Lemma run_keeps_player g cs u p :
  Game.players g !! u = Some p →
  ∃ p', Game.players (run g cs) !! u = Some p'
        ∧ Player.answers p `prefix_of` Player.answers p'
        ∧ (Player.left p = true → Player.left p' = true).
Proof.
  revert g p. induction cs as [|c cs IH]; intros g p Hu; [by exists p|].
  simpl. destruct (step_keeps_player g c u p Hu) as (p1 & Hu1 & Hpre1 & Hl1).
  destruct (IH _ _ Hu1) as (p2 & Hu2 & Hpre2 & Hl2).
  exists p2. split; [done|]. split; [by etrans|tauto].
Qed.

Lemma game_answered g :
  Game.answered g = true
  ↔ ∃ u p, Game.players g !! u = Some p ∧ Player.answers p ≠ [].
Proof.
  unfold Game.answered. rewrite existsb_exists. split.
  - intros (p & Hin & Hp). apply list_elem_of_In, list_elem_of_fmap in Hin
      as ([u p'] & -> & Hin). apply elem_of_map_to_list in Hin.
    exists u, p'. split; [done|]. unfold Player.answered in Hp.
    apply bool_decide_eq_true in Hp. simpl in *. intros Hnil.
    rewrite Hnil in Hp. simpl in Hp. lia.
  - intros (u & p & Hu & Hp). exists p. split.
    + apply list_elem_of_In, list_elem_of_fmap. exists (u, p).
      split; [done|]. by apply elem_of_map_to_list.
    + apply bool_decide_eq_true. destruct (Player.answers p); [done|].
      simpl. lia.
Qed.

Lemma game_over g :
  Game.over g = true
  ↔ ∀ u p, Game.players g !! u = Some p → Player.over p = true.
Proof.
  unfold Game.over. rewrite forallb_forall. split.
  - intros Hall u p Hu. apply Hall, list_elem_of_In, list_elem_of_fmap.
    exists (u, p). split; [done|]. by apply elem_of_map_to_list.
  - intros Hall p Hin. apply list_elem_of_In, list_elem_of_fmap in Hin
      as ([u p'] & -> & Hin). apply elem_of_map_to_list in Hin. by eapply Hall.
Qed.
End progress_facts.

(** X5. In every state of a session, a player is shown as many letters as
    the hidden word has; the letter shown at a position is the letter of the
    hidden word there, and it is shown exactly at the first position and where
    a guess of the player's history had that letter in place; and the player
    has found the word exactly when all its letters are shown. *)
Theorem revealed_letters `{Unidecode, Unicode}
    (g : Game.t) (user : N) (p : Player.t) :
  reachable g → Game.players g !! user = Some p →
  length (Player.letters p) = length (Game.hidden_word g)
  ∧ (∀ i c, Player.letters p !! i = Some (Some c)
       ↔ Game.hidden_word g !! i = Some c
         ∧ (i = 0%nat
            ∨ ∃ a, a ∈ Player.answers p ∧ Answer.letters a !! i = Some c))
  ∧ (Player.found p = true ↔ Player.letters p = Some <$> Game.hidden_word g).
Proof.
  intros Hg Hu.
  pose proof (player_revealed g (reachable_players_consistent g Hg) user p Hu)
    as Hrev.
  split; [apply Hrev|]. split; [apply Hrev|]. by apply found_revealed.
Qed.

Lemma revealed_letters_witness :
  let g := run (H := ascii_only_unidecode) (H0 := ascii_unicode) sample_game
             [AddAnswer 1 (py "chou")] in
  let p := scored (H := ascii_only_unidecode) (H0 := ascii_unicode)
             sample_game (Player.init 1 (py "chat")) (py "chou") in
  Player.letters p = [Some 99; Some 104; None; None]%N
  ∧ length (Player.letters p) = length (Game.hidden_word g)
  ∧ (∀ i c, Player.letters p !! i = Some (Some c)
       ↔ Game.hidden_word g !! i = Some c
         ∧ (i = 0%nat
            ∨ ∃ a, a ∈ Player.answers p ∧ Answer.letters a !! i = Some c))
  ∧ (Player.found p = true ↔ Player.letters p = Some <$> Game.hidden_word g).
Proof.
  intros g p. split; [by vm_compute|].
  apply (@revealed_letters ascii_only_unidecode ascii_unicode g 1 p).
  - apply reachable_run, sample_game_reachable.
  - by vm_compute.
Defined.

(** X6. In every state of a session, a player is stored under the user it
    mentions, and each answer of a player's history holds a normalised guess
    of the length of the hidden word, which the dictionary contains, with the
    classifications that [Answer.check] gives it against the hidden word. *)
Theorem history_recorded `{Unidecode, Unicode}
    (g : Game.t) (user : N) (p : Player.t) (a : Answer.t) :
  reachable g → Game.players g !! user = Some p → a ∈ Player.answers p →
  Player.mention p = user
  ∧ (∃ w, Answer.letters a = Dictionary.normalize w)
  ∧ length (Answer.letters a) = length (Game.hidden_word g)
  ∧ Dictionary.contains (Game.dictionary g) (Answer.letters a) = true
  ∧ Answer.types a = Answer.check (Answer.letters a) (Game.hidden_word g).
Proof.
  intros Hg Hu Ha. pose proof (reachable_players_consistent g Hg) as Hc.
  split; [by eapply player_key|]. by apply (player_history g Hc user p a).
Qed.

Lemma history_recorded_witness :
  let g := run (H := ascii_only_unidecode) (H0 := ascii_unicode) sample_game
             [AddAnswer 1 (py "Chou !")] in
  let a := Answer.init (py "chou") (py "chat") in
  (∃ w, Answer.letters a
        = Dictionary.normalize (H := ascii_only_unidecode) (H0 := ascii_unicode) w)
  ∧ length (Answer.letters a) = length (Game.hidden_word g)
  ∧ Dictionary.contains (Game.dictionary g) (Answer.letters a) = true
  ∧ Answer.types a = Answer.check (Answer.letters a) (Game.hidden_word g).
Proof.
  intros g a.
  apply (@history_recorded ascii_only_unidecode ascii_unicode g 1
           (scored (H := ascii_only_unidecode) (H0 := ascii_unicode)
              sample_game (Player.init 1 (py "chat")) (py "Chou !")) a).
  - apply reachable_run, sample_game_reachable.
  - by vm_compute.
  - vm_compute. apply list_elem_of_here.
Defined.

(** X7. [Player.add_answer] leaves the rank and the departure flag as they
    are and adds one answer at the end of the history. It keeps as many
    letters as the shortest of the letters shown, the guess and the hidden
    word, and never hides a letter: a letter shown before is shown after, at
    every position that is kept. *)
Theorem player_add_answer_keeps (p : Player.t) (word hidden_word : str) :
  let p' := Player.add_answer p word hidden_word in
  Player.rank p' = Player.rank p
  ∧ Player.left p' = Player.left p
  ∧ Player.answers p' = Player.answers p ++ [Answer.init word hidden_word]
  ∧ length (Player.letters p')
    = (length (Player.letters p) `min` (length word `min` length hidden_word))%nat
  ∧ ∀ i c, Player.letters p !! i = Some (Some c) →
           (i < length word `min` length hidden_word)%nat →
           Player.letters p' !! i = Some (Some c).
Proof.
  intros p'. subst p'. repeat split.
  - simpl. rewrite length_zip_with.
    by rewrite (proj2 (letters_found_lookup word hidden_word 0)).
  - intros i c Hi Hlt. simpl. rewrite lookup_zip_with, Hi. simpl.
    destruct (lookup_lt_is_Some_2
      (Answer.get_letters_found (Answer.init word hidden_word)) i) as [y ->];
      [|done].
    by rewrite (proj2 (letters_found_lookup word hidden_word 0)).
Qed.

Lemma get_letters_found_hidden (hidden : str) (y : option N) :
  y ∈ Answer.get_letters_found (Answer.init hidden hidden) → y ≠ None.
Proof.
  intros Hy. apply list_elem_of_lookup in Hy as [i Hi].
  assert (i < length hidden)%nat as Hlt.
  { apply lookup_lt_Some in Hi.
    rewrite (proj2 (letters_found_lookup hidden hidden 0)) in Hi. lia. }
  destruct (lookup_lt_is_Some_2 hidden i Hlt) as [c Hc].
  assert (Answer.get_letters_found (Answer.init hidden hidden) !! i
          = Some (Some c)) as Hsome
    by (by apply (proj1 (letters_found_lookup hidden hidden i))).
  congruence.
Qed.

Lemma add_answer_hidden_word `{Unidecode, Unicode}
    (g : Game.t) (user : N) (p : Player.t) (word : str) :
  Game.players g !! user = Some p → Player.over p = false →
  Dictionary.normalize word = Game.hidden_word g →
  Dictionary.contains (Game.dictionary g) (Game.hidden_word g) = true →
  let r := Game.add_answer g user word in
  r.2 = (true, None)
  ∧ Game.next_rank r.1 = Game.next_rank g + 1
  ∧ (∃ p', Game.players r.1 !! user = Some p'
           ∧ Player.found p' = true ∧ Player.rank p' = Game.next_rank g)
  ∧ ∀ v, v ≠ user → Game.players r.1 !! v = Game.players g !! v.
Proof.
  intros Hu Hover Hw Hin r. subst r.
  assert (accepts g user p word) as Hacc.
  { split; [done|]. split; [done|]. by rewrite Hw. }
  rewrite (add_answer_accepted _ _ _ _ Hacc).
  assert (Player.found (scored g p word) = true) as Hfound.
  { unfold Player.found, scored. rewrite Hw. apply bool_decide_eq_true.
    simpl. intros Hnone.
    apply elem_of_zip_with in Hnone as (x & y & Hxy & _ & Hy).
    apply get_letters_found_hidden in Hy. by destruct x, y. }
  rewrite Hfound. simpl. split; [done|]. split; [done|]. split.
  - eexists. rewrite lookup_insert_eq. by rewrite found_set_rank.
  - intros v Hv. by rewrite lookup_insert_ne.
Qed.

(** X8. A player who is still playing and whose guess normalises to the
    hidden word, when the dictionary contains it, is accepted, has found the
    word in that same call and takes the current [next_rank], which goes up
    by one; the other players are untouched. *)
Theorem hidden_word_wins `{Unidecode, Unicode}
    (g : Game.t) (user : N) (p : Player.t) (word : str) :
  Game.players g !! user = Some p → Player.over p = false →
  Dictionary.normalize word = Game.hidden_word g →
  Dictionary.contains (Game.dictionary g) (Game.hidden_word g) = true →
  let r := Game.add_answer g user word in
  r.2 = (true, None)
  ∧ Game.next_rank r.1 = Game.next_rank g + 1
  ∧ (∃ p', Game.players r.1 !! user = Some p'
           ∧ Player.found p' = true ∧ Player.rank p' = Game.next_rank g)
  ∧ ∀ v, v ≠ user → Game.players r.1 !! v = Game.players g !! v.
Proof. apply add_answer_hidden_word. Qed.

Lemma hidden_word_wins_witness :
  let r := Game.add_answer (H := ascii_only_unidecode) (H0 := ascii_unicode)
             sample_game 2 (py "Chat") in
  r.2 = (true, None) ∧ Game.next_rank r.1 = 2
  ∧ rank_of r.1 2 = Some 1.
Proof.
  intros r.
  destruct (@hidden_word_wins ascii_only_unidecode ascii_unicode sample_game 2
              (Player.init 2 (py "chat")) (py "Chat"))
    as (Hr & Hn & (p' & Hp' & _ & Hrank) & _);
    [by vm_compute|by vm_compute|by vm_compute|by vm_compute|].
  split; [exact Hr|]. split; [exact Hn|].
  unfold rank_of. fold r in Hp'. rewrite Hp'. simpl. by rewrite Hrank.
Defined.

(** X9. No call changes the hidden word or the dictionary of a game. *)
Theorem session_word_fixed `{Unidecode, Unicode} (g : Game.t) (cs : list call) :
  Game.hidden_word (run g cs) = Game.hidden_word g
  ∧ Game.dictionary (run g cs) = Game.dictionary g.
Proof. apply word_and_dictionary_run. Qed.

(** X10. A game is over exactly when each of its players is over; a game
    started with no player is over at once. Once a game is over, every guess
    and every departure is refused and leaves the game as it is. *)
Theorem game_over_frozen `{Unidecode, Unicode} (g : Game.t) :
  (Game.over g = true
   ↔ ∀ u p, Game.players g !! u = Some p → Player.over p = true)
  ∧ (∀ d hidden, Game.over (Game.init d hidden []) = true)
  ∧ (Game.over g = true → ∀ u w,
       Game.add_answer g u w = (g, (false, None))
       ∧ Game.remove_player g u = (g, false)).
Proof.
  split; [apply game_over|]. split; [done|].
  intros Hover u w. rewrite game_over in Hover.
  unfold Game.add_answer, Game.remove_player.
  destruct (Game.players g !! u) as [p|] eqn:Hu; [|done].
  by rewrite (Hover u p Hu).
Qed.

Lemma game_over_frozen_witness :
  let g := run (H := ascii_only_unidecode) (H0 := ascii_unicode) sample_game
             [AddAnswer 1 (py "chat"); RemovePlayer 2] in
  Game.add_answer (H := ascii_only_unidecode) (H0 := ascii_unicode)
    g 2 (py "chat") = (g, (false, None))
  ∧ Game.remove_player g 1 = (g, false).
Proof.
  intros g.
  destruct (@game_over_frozen ascii_only_unidecode ascii_unicode g)
    as (_ & _ & Hfrozen).
  specialize (Hfrozen ltac:(by vm_compute)).
  split; [apply (Hfrozen 2%N)|apply (Hfrozen 1%N [])].
Defined.

(** X11. Along a session no player is ever deleted: after any further calls
    a player is still there, with a history that starts with the old one,
    every letter that was shown still shown, still found if the player had
    found the word, still gone if the player had left, and with the same
    rank if the player had one. *)
Theorem players_only_progress `{Unidecode, Unicode}
    (g : Game.t) (cs : list call) (user : N) (p : Player.t) :
  reachable g → Game.players g !! user = Some p →
  ∃ p', Game.players (run g cs) !! user = Some p'
        ∧ Player.answers p `prefix_of` Player.answers p'
        ∧ (∀ i c, Player.letters p !! i = Some (Some c) →
                  Player.letters p' !! i = Some (Some c))
        ∧ (Player.found p = true → Player.found p' = true)
        ∧ (Player.left p = true → Player.left p' = true)
        ∧ (Player.rank p ≠ -1 → Player.rank p' = Player.rank p).
Proof.
  intros Hg Hu.
  destruct (run_keeps_player g cs user p Hu) as (p' & Hu' & Hpre & Hleft).
  exists p'. split; [done|]. split; [done|].
  pose proof (player_revealed g (reachable_players_consistent g Hg) user p Hu)
    as [_ Hrev].
  pose proof (player_revealed _ (reachable_players_consistent _
                (reachable_run g cs Hg)) user p' Hu') as [_ Hrev'].
  rewrite (proj1 (word_and_dictionary_run g cs)) in Hrev'.
  split; [|split; [|split; [done|]]].
  - intros i c Hi. apply Hrev in Hi as [Hh Hwhy]. apply Hrev'.
    split; [done|]. destruct Hwhy as [->|(a & Ha & Hai)]; [by left|right].
    exists a. split; [|done]. destruct Hpre as [k ->].
    apply elem_of_app. by left.
  - intros Hf.
    pose proof (run_over_frozen g cs user p Hu (over_found p Hf)). congruence.
  - intros Hr.
    destruct (rank_range g (reachable_consistent g Hg) user p Hu)
      as [?|[_ Hf]]; [done|].
    pose proof (run_over_frozen g cs user p Hu (over_found p Hf)). congruence.
Qed.

Lemma players_only_progress_witness :
  let g := run (H := ascii_only_unidecode) (H0 := ascii_unicode) sample_game
             [AddAnswer 1 (py "chou")] in
  let p := scored (H := ascii_only_unidecode) (H0 := ascii_unicode)
             sample_game (Player.init 1 (py "chat")) (py "chou") in
  ∃ p', Game.players
          (run (H := ascii_only_unidecode) (H0 := ascii_unicode) g
             [AddAnswer 1 (py "chien"); AddPlayer 1; AddAnswer 2 (py "chat")])
          !! 1%N = Some p'
        ∧ Player.answers p `prefix_of` Player.answers p'
        ∧ (∀ i c, Player.letters p !! i = Some (Some c) →
                  Player.letters p' !! i = Some (Some c))
        ∧ (Player.found p = true → Player.found p' = true)
        ∧ (Player.left p = true → Player.left p' = true)
        ∧ (Player.rank p ≠ -1 → Player.rank p' = Player.rank p).
Proof.
  intros g p.
  apply (@players_only_progress ascii_only_unidecode ascii_unicode g).
  - apply reachable_run, sample_game_reachable.
  - by vm_compute.
Defined.

(** X12. [Game.answered] holds exactly when some player has a history that
    is not empty; an accepted guess makes it hold, and once it holds it holds
    after any further calls. *)
Theorem answered_for_good `{Unidecode, Unicode} (g : Game.t) :
  (Game.answered g = true
   ↔ ∃ u p, Game.players g !! u = Some p ∧ Player.answers p ≠ [])
  ∧ (∀ u w, (Game.add_answer g u w).2.1 = true →
            Game.answered (Game.add_answer g u w).1 = true)
  ∧ (Game.answered g = true → ∀ cs, Game.answered (run g cs) = true).
Proof.
  split; [apply game_answered|]. split.
  - intros u w Hacc. apply game_answered.
    destruct (add_answer_cases g u w) as [[_ Hrej]|[p Ha]]; [congruence|].
    rewrite (add_answer_accepted _ _ _ _ Ha).
    destruct (Player.found (scored g p w)); simpl;
      eexists u, _; rewrite lookup_insert_eq; (split; [done|]); simpl;
      by destruct (Player.answers p).
  - intros Hans cs. apply game_answered in Hans as (u & p & Hu & Hp).
    apply game_answered.
    destruct (run_keeps_player g cs u p Hu) as (p' & Hu' & [k Hk] & _).
    exists u, p'. split; [done|]. rewrite Hk. by destruct (Player.answers p).
Qed.

Lemma answered_for_good_witness :
  Game.answered
    (run (H := ascii_only_unidecode) (H0 := ascii_unicode) sample_game
       [AddAnswer 1 (py "chou"); RemovePlayer 1; AddPlayer 3]) = true.
Proof.
  change (Game.answered
    (run (H := ascii_only_unidecode) (H0 := ascii_unicode)
       (Game.add_answer (H := ascii_only_unidecode) (H0 := ascii_unicode)
          sample_game 1 (py "chou")).1
       [RemovePlayer 1; AddPlayer 3]) = true).
  destruct (@answered_for_good ascii_only_unidecode ascii_unicode
              (Game.add_answer (H := ascii_only_unidecode) (H0 := ascii_unicode)
                 sample_game 1 (py "chou")).1) as (_ & _ & Hkeep).
  destruct (@answered_for_good ascii_only_unidecode ascii_unicode sample_game)
    as (_ & Hacc & _).
  apply Hkeep, Hacc. by vm_compute.
Defined.

(** ** The dictionary *)

Section dictionary_facts.
Context `{Unidecode, Unicode}.

Lemma contains_init dictionary_lines choices_lines w :
  Dictionary.contains (Dictionary.init dictionary_lines choices_lines) w = true
  ↔ ∃ line, line ∈ dictionary_lines ++ choices_lines
            ∧ w = Dictionary.normalize line.
Proof.
  unfold Dictionary.contains, Dictionary.init, Dictionary.load. simpl.
  rewrite bool_decide_eq_true, elem_of_union, !elem_of_list_to_set,
    !list_elem_of_fmap.
  setoid_rewrite elem_of_app. split.
  - intros [(l & -> & Hl)|(l & -> & Hl)]; exists l; tauto.
  - intros (l & [Hl|Hl] & ->); [left|right]; by exists l.
Qed.

Lemma choices_contained dictionary_lines choices_lines w :
  w ∈ Dictionary.choices (Dictionary.init dictionary_lines choices_lines) →
  Dictionary.contains (Dictionary.init dictionary_lines choices_lines) w = true.
Proof.
  intros Hw. apply contains_init. simpl in Hw. unfold Dictionary.load in Hw.
  apply list_elem_of_fmap in Hw as (line & -> & Hline).
  exists line. split; [|done]. apply elem_of_app. by right.
Qed.
End dictionary_facts.

(** X13. In the dictionary built from the two word files, the words that
    [contains] accepts are exactly the normalised lines of the two files, so
    every word that can be chosen as the hidden word is accepted; each such
    word is made of lowercase letters and is its own normalisation. *)
Theorem dictionary_init_contains `{Unidecode, Unicode}
    (dictionary_lines choices_lines : list str) :
  UnidecodeLaws → UnicodeLaws →
  let d := Dictionary.init dictionary_lines choices_lines in
  (∀ w, Dictionary.contains d w = true
        ↔ ∃ line, line ∈ dictionary_lines ++ choices_lines
                  ∧ w = Dictionary.normalize line)
  ∧ (∀ w, w ∈ Dictionary.choices d → Dictionary.contains d w = true)
  ∧ (∀ w, Dictionary.contains d w = true →
          normalized w ∧ Dictionary.normalize w = w).
Proof.
  intros HU HP d. subst d. split; [apply contains_init|].
  split; [apply choices_contained|].
  intros w Hw. apply contains_init in Hw as (line & _ & ->).
  split; [apply normalized_normalize|].
  apply normalize_normalized, normalized_normalize.
Qed.

Lemma dictionary_init_contains_witness :
  let d := Dictionary.init (H := ascii_only_unidecode) (H0 := ascii_unicode)
             [py "Chien"; py "chou-fleur"] [py "CHAT"] in
  Dictionary.choices d = [py "chat"]
  ∧ Dictionary.contains d (py "chat") = true
  ∧ Dictionary.contains d (py "choufleur") = true
  ∧ normalized (py "choufleur").
Proof.
  intros d.
  destruct (@dictionary_init_contains ascii_only_unidecode ascii_unicode
              [py "Chien"; py "chou-fleur"] [py "CHAT"]
              ascii_only_unidecode_laws ascii_unicode_laws)
    as (Hiff & Hchoice & Hnorm).
  split; [by vm_compute|]. split; [|split].
  - apply Hchoice. vm_compute. apply list_elem_of_here.
  - apply Hiff. exists (py "chou-fleur"). split; [|by vm_compute].
    apply list_elem_of_further, list_elem_of_here.
  - apply Hnorm, Hiff. exists (py "chou-fleur"). split; [|by vm_compute].
    apply list_elem_of_further, list_elem_of_here.
Defined.

(** X14. In a session started on a word chosen from a dictionary built from
    the word files, at any time, a player who is still playing and guesses
    the hidden word itself is accepted, has found the word and takes the
    current [next_rank]. *)
Theorem secret_is_guessable `{Unidecode, Unicode}
    (dictionary_lines choices_lines : list str) (hidden : str)
    (users : list N) (cs : list call) (user : N) (p : Player.t) :
  UnidecodeLaws → UnicodeLaws →
  let d := Dictionary.init dictionary_lines choices_lines in
  let g := run (Game.init d hidden users) cs in
  hidden ∈ Dictionary.choices d →
  Game.players g !! user = Some p → Player.over p = false →
  let r := Game.add_answer g user hidden in
  r.2 = (true, None)
  ∧ Game.next_rank r.1 = Game.next_rank g + 1
  ∧ ∃ p', Game.players r.1 !! user = Some p'
          ∧ Player.found p' = true ∧ Player.rank p' = Game.next_rank g.
Proof.
  intros HU HP d g Hin Hu Hover r. subst r.
  destruct (word_and_dictionary_run (Game.init d hidden users) cs) as [Hw Hd].
  fold g in Hw, Hd. simpl in Hw, Hd.
  pose proof (choices_contained _ _ _ Hin) as Hc.
  assert (Dictionary.normalize hidden = hidden) as Hn.
  { apply contains_init in Hc as (line & _ & ->).
    apply normalize_normalized, normalized_normalize. }
  destruct (add_answer_hidden_word g user p hidden Hu Hover)
    as (Hr & Hnext & Hp' & _); [by rewrite Hw|by rewrite Hw, Hd|].
  done.
Qed.

Lemma secret_is_guessable_witness :
  let d := Dictionary.init (H := ascii_only_unidecode) (H0 := ascii_unicode)
             [py "Chien"; py "chou"] [py "CHAT"] in
  let g := run (H := ascii_only_unidecode) (H0 := ascii_unicode)
             (Game.init d (py "chat") [1; 2]%N) [AddAnswer 1 (py "chou")] in
  let r := Game.add_answer (H := ascii_only_unidecode) (H0 := ascii_unicode)
             g 1 (py "chat") in
  r.2 = (true, None)
  ∧ Game.next_rank r.1 = Game.next_rank g + 1
  ∧ ∃ p', Game.players r.1 !! 1%N = Some p'
          ∧ Player.found p' = true ∧ Player.rank p' = Game.next_rank g.
Proof.
  intros d g r.
  eapply (@secret_is_guessable ascii_only_unidecode ascii_unicode
            [py "Chien"; py "chou"] [py "CHAT"] (py "chat") [1; 2]%N
            [AddAnswer 1 (py "chou")] 1%N _
            ascii_only_unidecode_laws ascii_unicode_laws).
  - vm_compute. apply list_elem_of_here.
  - by vm_compute.
  - by vm_compute.
Defined.

(** ** The helpers of the messages *)

Section message_facts.
Implicit Types (sep s cur : str) (seq lines : list str).

Lemma str_join_cons sep x seq :
  seq ≠ [] → str_join sep (x :: seq) = x ++ sep ++ str_join sep seq.
Proof. by destruct seq. Qed.

Lemma str_join_merge sep a b seq :
  str_join sep ((a ++ sep ++ b) :: seq) = str_join sep (a :: b :: seq).
Proof.
  destruct seq as [|c seq]; [done|].
  rewrite !str_join_cons by done. by rewrite <- !app_assoc.
Qed.

Lemma str_join_snoc sep seq z :
  seq ≠ [] → str_join sep (seq ++ [z]) = str_join sep seq ++ sep ++ z.
Proof.
  induction seq as [|x seq IH]; [done|]. intros _.
  destruct seq as [|y seq]; [done|].
  rewrite <- app_comm_cons, !str_join_cons, IH by done.
  by rewrite <- !app_assoc.
Qed.

Lemma after_prefix_Some sep s rest :
  after_prefix sep s = Some rest → s = sep ++ rest.
Proof.
  revert s. induction sep as [|a sep IH]; intros [|b s]; simpl; try done.
  - by intros [= ->].
  - by intros [= ->].
  - case_decide; [|done]. subst b. intros Hr. by rewrite (IH _ Hr).
Qed.

Lemma split_scan_not_nil steps sep cur s : split_scan steps sep cur s ≠ [].
Proof.
  revert cur s. induction steps as [|n IH]; intros cur [|c s]; simpl; try done.
  destruct (after_prefix sep (c :: s)); [done|apply IH].
Qed.

Lemma split_scan_join steps sep cur s :
  sep ≠ [] → (length s ≤ steps)%nat →
  str_join sep (split_scan steps sep cur s) = cur ++ s.
Proof.
  intros Hsep. revert cur s.
  induction steps as [|n IH]; intros cur [|c s] Hlen; simpl in *;
    try (by rewrite ?app_nil_r); try lia.
  destruct (after_prefix sep (c :: s)) as [rest|] eqn:Hp.
  - apply after_prefix_Some in Hp.
    rewrite str_join_cons by apply split_scan_not_nil.
    rewrite IH; [by rewrite Hp|].
    apply (f_equal length) in Hp. rewrite length_app in Hp. simpl in Hp.
    destruct sep; [done|]. simpl in Hp. lia.
  - rewrite IH by lia. by rewrite <- app_assoc.
Qed.

Lemma chunks_join sep limit cur lines :
  ∃ parts, chunks sep limit cur lines = (λ p, p ++ [zero_width_space]) <$> parts
           ∧ parts ≠ []
           ∧ str_join sep parts = str_join sep (cur :: lines).
Proof.
  revert cur. induction lines as [|line lines IH]; intros cur; simpl.
  - by exists [cur].
  - case_decide.
    + destruct (IH (cur ++ sep ++ line)) as (parts & -> & Hne & Hj).
      exists parts. split; [done|]. split; [done|].
      by rewrite Hj, str_join_merge.
    + destruct (IH line) as (parts & -> & Hne & Hj).
      exists (cur :: parts). split; [done|]. split; [done|].
      by rewrite str_join_cons, Hj.
Qed.

Lemma chunks_bound sep limit cur lines :
  (length sep ≤ 1)%nat →
  Z.of_nat (length cur) ≤ limit →
  Forall (λ line, Z.of_nat (length line) ≤ limit) lines →
  Forall (λ c, Z.of_nat (length c) ≤ limit + 1) (chunks sep limit cur lines).
Proof.
  intros Hsep. revert cur.
  induction lines as [|line lines IH]; intros cur Hcur Hlines; simpl.
  - constructor; [|done]. rewrite length_app. simpl. lia.
  - apply Forall_cons in Hlines as [Hline Hlines]. case_decide.
    + apply IH; [|done]. rewrite !length_app. lia.
    + constructor; [|by apply IH]. rewrite length_app. simpl. lia.
Qed.
End message_facts.

(** X15. [join] fails exactly on the empty sequence; on one element it
    returns the element; on more it joins all but the last with [sep] and
    adds the last after [sep_last], so that with the same text for both
    separators it is [sep.join(seq)]. *)
Theorem join_cases (seq : list str) (sep sep_last : str) :
  (join seq sep sep_last = None ↔ seq = [])
  ∧ (∀ x, seq = [x] → join seq sep sep_last = Some x)
  ∧ (∀ init z, init ≠ [] → seq = init ++ [z] →
       join seq sep sep_last = Some (str_join sep init ++ sep_last ++ z))
  ∧ (seq ≠ [] → join seq sep sep = Some (str_join sep seq)).
Proof.
  assert (∀ sl init z, init ≠ [] →
            join (init ++ [z]) sep sl = Some (str_join sep init ++ sl ++ z))
    as Hlong.
  { intros sl init z Hinit. unfold join.
    rewrite decide_True by (rewrite length_app; destruct init; simpl; [done|lia]).
    by rewrite last_snoc, removelast_last. }
  split; [|split; [|split]].
  - unfold join. destruct seq as [|x [|y seq]]; simpl; try done.
    split; [|done].
    destruct (last (y :: seq)) eqn:Hl; [done|].
    by apply last_None in Hl.
  - by intros x ->.
  - intros init z Hinit ->. by apply Hlong.
  - intros Hseq. destruct (decide (length seq = 1%nat)) as [H1|H1].
    + by destruct seq as [|x [|??]].
    + destruct seq as [|x seq] using rev_ind; [done|].
      assert (seq ≠ []) by (intros ->; done).
      by rewrite Hlong, str_join_snoc.
Qed.

Lemma join_cases_witness :
  join [py "a"; py "b"; py "c"] (py ", ") (py " et ") = Some (py "a, b et c")
  ∧ join [py "a"] (py ", ") (py " et ") = Some (py "a").
Proof.
  destruct (join_cases [py "a"; py "b"; py "c"] (py ", ") (py " et "))
    as (_ & _ & Hlong & _).
  destruct (join_cases [py "a"] (py ", ") (py " et ")) as (_ & Hone & _).
  split.
  - by rewrite (Hlong [py "a"; py "b"] (py "c")).
  - by apply Hone.
Defined.

(** X16. [split_message] fails exactly when the separator is empty.
    Otherwise it yields at least one chunk, every chunk ends with a zero
    width space, and the chunks without that mark, joined with the
    separator, are the message: nothing is lost and nothing is added. *)
Theorem split_message_round_trip (message sep : str) (limit : Z) :
  (split_message message sep limit = None ↔ sep = [])
  ∧ ∀ cs, split_message message sep limit = Some cs →
      ∃ parts, cs = (λ p, p ++ [zero_width_space]) <$> parts
               ∧ parts ≠ []
               ∧ str_join sep parts = message.
Proof.
  unfold split_message, str_split.
  destruct (decide (sep = [])) as [->|Hsep]; simpl; [done|].
  pose proof (split_scan_not_nil (length message) sep [] message) as Hne.
  pose proof (split_scan_join (length message) sep [] message Hsep
                ltac:(done)) as Hj.
  destruct (split_scan _ _ _ _) as [|cur lines]; [done|].
  split; [done|]. intros cs [= <-].
  destruct (chunks_join sep (limit - 1) cur lines) as (parts & -> & Hp & Hparts).
  exists parts. split; [done|]. split; [done|]. by rewrite Hparts, Hj.
Qed.

Lemma split_message_round_trip_witness :
  split_message (py "ab,cd,efgh,i") (py ",") 7
  = Some [py "ab,cd" ++ [zero_width_space]; py "efgh,i" ++ [zero_width_space]]
  ∧ ∃ parts,
      [py "ab,cd" ++ [zero_width_space]; py "efgh,i" ++ [zero_width_space]]
      = (λ p, p ++ [zero_width_space]) <$> parts
      ∧ parts ≠ []
      ∧ str_join (py ",") parts = py "ab,cd,efgh,i".
Proof.
  split; [by vm_compute|].
  apply (proj2 (split_message_round_trip (py "ab,cd,efgh,i") (py ",") 7)).
  by vm_compute.
Defined.

(** X17. With a separator of one character, when every piece of the message
    between separators is shorter than the limit, every chunk that
    [split_message] yields, its zero width space included, is at most
    [limit] long. *)
Theorem split_message_bound (message sep : str) (limit : Z)
    (lines cs : list str) :
  length sep = 1%nat →
  str_split message sep = Some lines →
  Forall (λ line, Z.of_nat (length line) < limit) lines →
  split_message message sep limit = Some cs →
  Forall (λ c, Z.of_nat (length c) ≤ limit) cs.
Proof.
  intros Hsep Hlines Hshort. unfold split_message. rewrite Hlines. simpl.
  destruct lines as [|cur rest]; [done|]. intros [= <-].
  apply Forall_cons in Hshort as [Hcur Hrest].
  pose proof (chunks_bound sep (limit - 1) cur rest) as Hb.
  rewrite Z.sub_add in Hb. apply Hb; [lia|lia|].
  eapply Forall_impl; [exact Hrest|]. simpl. intros. lia.
Qed.

Lemma split_message_bound_witness :
  Forall (λ c, Z.of_nat (length c) ≤ 7)
    [py "ab,cd" ++ [zero_width_space]; py "efgh,i" ++ [zero_width_space]].
Proof.
  apply (split_message_bound (py "ab,cd,efgh,i") (py ",") 7
           [py "ab"; py "cd"; py "efgh"; py "i"]);
    [done|by vm_compute| |by vm_compute].
  repeat constructor; simpl; lia.
Defined.

(** ** Sums of counters *)

Section total_facts.
Context `{Countable K}.
Implicit Types (c : gmap K Z) (x : K).

Lemma total_empty : Counter.total (∅ : gmap K Z) = 0.
Proof. unfold Counter.total. by rewrite map_fold_empty. Qed.

Lemma total_insert_fresh c x v :
  c !! x = None → Counter.total (<[x := v]> c) = v + Counter.total c.
Proof.
  intros Hx. unfold Counter.total.
  rewrite map_fold_insert_L; [done| |done]. intros. lia.
Qed.

Lemma total_insert c x v :
  Counter.total (<[x := v]> c) = Counter.total c - Counter.get c x + v.
Proof.
  unfold Counter.get. destruct (c !! x) as [v0|] eqn:Hx; simpl.
  - rewrite <- insert_delete_eq.
    rewrite total_insert_fresh by apply lookup_delete_eq.
    unfold Counter.total at 2.
    rewrite (map_fold_delete_L _ _ x v0 c); [|intros; lia|done].
    fold (Counter.total (delete x c)). lia.
  - rewrite total_insert_fresh by done. lia.
Qed.

Lemma total_add c x d :
  Counter.total (Counter.add x d c) = Counter.total c + d.
Proof. unfold Counter.add. rewrite total_insert. lia. Qed.

Lemma total_update c (l : list K) :
  Counter.total (Counter.update c l) = Counter.total c + Z.of_nat (length l).
Proof.
  revert c. induction l as [|x l IH]; intros c; simpl; [lia|].
  unfold Counter.update in *. simpl. rewrite IH, total_add. lia.
Qed.

Lemma total_no_negative c : no_negative_count c → 0 ≤ Counter.total c.
Proof.
  induction c as [|x v c Hx IH] using map_ind; intros Hc.
  - by rewrite total_empty.
  - apply map_Forall_insert in Hc as [Hv Hc]; [|done].
    rewrite total_insert_fresh by done. specialize (IH Hc). lia.
Qed.

Lemma get_le_total c x :
  no_negative_count c → 0 ≤ Counter.get c x ≤ Counter.total c.
Proof.
  intros Hc. unfold Counter.get.
  destruct (c !! x) as [v|] eqn:Hx; simpl.
  - pose proof (Hc x v Hx) as Hv. simpl in Hv.
    rewrite <- (insert_delete_id c x v) by done.
    rewrite total_insert_fresh by apply lookup_delete_eq.
    assert (0 ≤ Counter.total (delete x c)); [|lia].
    apply total_no_negative. intros y w Hy.
    apply lookup_delete_Some in Hy as [_ Hy]. by apply (Hc y w).
  - split; [done|]. by apply total_no_negative.
Qed.

Lemma no_negative_add c x d :
  no_negative_count c → 0 ≤ d → no_negative_count (Counter.add x d c).
Proof.
  intros Hc Hd. unfold Counter.add. apply map_Forall_insert_2; [|done].
  pose proof (get_le_total c x Hc). lia.
Qed.

Lemma no_negative_update c (l : list K) :
  no_negative_count c → no_negative_count (Counter.update c l).
Proof.
  revert c. induction l as [|x l IH]; intros c Hc; [done|].
  unfold Counter.update in *. simpl. apply IH. by apply no_negative_add.
Qed.

Lemma update_not_empty c (l : list K) :
  c ≠ ∅ ∨ l ≠ [] → Counter.update c l ≠ ∅.
Proof.
  revert c. induction l as [|x l IH]; intros c Hc.
  - by destruct Hc.
  - unfold Counter.update in *. simpl. apply IH. left.
    unfold Counter.add. apply insert_non_empty.
Qed.
End total_facts.

(** ** Statistics accumulated from sessions *)

Section counted_facts.
Context `{Unidecode, Unicode}.

Lemma well_counted_init : well_counted PlayerStats.init.
Proof.
  split; simpl.
  - apply map_Forall_empty.
  - apply map_Forall_empty.
  - by vm_compute.
  - by vm_compute.
Qed.

Lemma num_played_update s p :
  PlayerStats.num_played (PlayerStats.update s p) = PlayerStats.num_played s + 1.
Proof. unfold PlayerStats.num_played. simpl. apply total_add. Qed.

Lemma num_not_found_update s p :
  PlayerStats.num_not_found (PlayerStats.update s p)
  = PlayerStats.num_not_found s + (if decide (Player.rank p = -1) then 1 else 0).
Proof.
  unfold PlayerStats.num_not_found. simpl. rewrite get_add.
  destruct (decide (Player.rank p = -1)) as [->|Hr].
  - by rewrite decide_True.
  - rewrite decide_False by done. lia.
Qed.

Lemma num_words_update s p :
  PlayerStats.num_words (PlayerStats.update s p)
  = PlayerStats.num_words s + Z.of_nat (length (Player.answers p)).
Proof.
  unfold PlayerStats.num_words. simpl.
  by rewrite total_update, length_fmap.
Qed.

Lemma well_counted_update s p :
  well_counted s → (Player.rank p ≠ -1 → Player.answers p ≠ []) →
  well_counted (PlayerStats.update s p).
Proof.
  intros [Hr Hw Hf Hn] Hp. split.
  - simpl. by apply no_negative_add.
  - simpl. by apply no_negative_update.
  - rewrite num_words_update. simpl. destruct (Player.found p); lia.
  - unfold PlayerStats.num_found.
    rewrite num_played_update, num_not_found_update. simpl. intros Hfound.
    apply update_not_empty.
    destruct (decide (Player.rank p = -1)) as [Hrank|Hrank].
    + left. apply Hn. unfold PlayerStats.num_found. lia.
    + right. intros Hnil. apply fmap_nil_inv in Hnil. by apply Hp.
Qed.

Lemma well_counted_foldl s ps :
  well_counted s → Forall session_player ps →
  well_counted (foldl PlayerStats.update s ps).
Proof.
  revert s. induction ps as [|p ps IH]; intros s Hs Hps; [done|].
  apply Forall_cons in Hps as [(g & u & Hg & Hu) Hps]. simpl.
  apply IH; [|done]. apply well_counted_update; [done|].
  by apply (player_ranked g (reachable_players_consistent g Hg) u p).
Qed.

Lemma num_played_foldl s (ps : list Player.t) :
  PlayerStats.num_played (foldl PlayerStats.update s ps)
  = PlayerStats.num_played s + Z.of_nat (length ps).
Proof.
  revert s. induction ps as [|p ps IH]; intros s; simpl; [lia|].
  rewrite IH, num_played_update. lia.
Qed.
End counted_facts.

(** X18. One [PlayerStats.update] counts one more game, one more game not
    found exactly when the player's rank is -1, and as many more words as the
    player has answers; the words guessed when finding go up by the same
    number when the player has found the word, and stay otherwise. *)
Theorem player_stats_update_counts (s : PlayerStats.t) (p : Player.t) :
  let s' := PlayerStats.update s p in
  PlayerStats.num_played s' = PlayerStats.num_played s + 1
  ∧ PlayerStats.num_not_found s'
    = PlayerStats.num_not_found s + (if decide (Player.rank p = -1) then 1 else 0)
  ∧ PlayerStats.num_words s'
    = PlayerStats.num_words s + Z.of_nat (length (Player.answers p))
  ∧ PlayerStats.num_words_when_found s'
    = PlayerStats.num_words_when_found s
      + (if Player.found p then Z.of_nat (length (Player.answers p)) else 0).
Proof.
  intros s'. subst s'.
  split; [apply num_played_update|]. split; [apply num_not_found_update|].
  split; [apply num_words_update|]. simpl. destruct (Player.found p); lia.
Qed.

(** X19. For statistics accumulated from nothing over players that sessions
    produced: the games played are as many as the players counted; the games
    not found are between zero and the games played; and when the games found
    are not zero, which is when [get_emojis] goes on to divide and to join,
    the games played are not zero and some word has been counted; the words
    guessed when finding are between zero and all the words guessed. *)
Theorem player_stats_figures `{Unidecode, Unicode} (ps : list Player.t) :
  Forall session_player ps →
  let s := foldl PlayerStats.update PlayerStats.init ps in
  PlayerStats.num_played s = Z.of_nat (length ps)
  ∧ 0 ≤ PlayerStats.num_not_found s ≤ PlayerStats.num_played s
  ∧ (PlayerStats.num_found s ≠ 0 →
       PlayerStats.num_played s ≠ 0 ∧ PlayerStats.words s ≠ ∅)
  ∧ 0 ≤ PlayerStats.num_words_when_found s ≤ PlayerStats.num_words s.
Proof.
  intros Hps s.
  pose proof (well_counted_foldl _ ps well_counted_init Hps) as [Hr Hw Hf Hn].
  fold s in Hr, Hw, Hf, Hn.
  pose proof (get_le_total (PlayerStats.ranks s) (-1) Hr) as Hle.
  fold (PlayerStats.num_not_found s) (PlayerStats.num_played s) in Hle.
  split; [|split; [done|split; [|done]]].
  - subst s. by rewrite num_played_foldl.
  - intros Hfound. split; [|by apply Hn].
    unfold PlayerStats.num_found in Hfound. lia.
Qed.

Lemma player_stats_figures_witness :
  let p := scored (H := ascii_only_unidecode) (H0 := ascii_unicode)
             sample_game (Player.init 1 (py "chat")) (py "chou") in
  let s := foldl PlayerStats.update PlayerStats.init [p] in
  PlayerStats.num_played s = 1
  ∧ 0 ≤ PlayerStats.num_not_found s ≤ PlayerStats.num_played s
  ∧ (PlayerStats.num_found s ≠ 0 →
       PlayerStats.num_played s ≠ 0 ∧ PlayerStats.words s ≠ ∅)
  ∧ 0 ≤ PlayerStats.num_words_when_found s ≤ PlayerStats.num_words s.
Proof.
  intros p s.
  apply (@player_stats_figures ascii_only_unidecode ascii_unicode [p]).
  constructor; [|done].
  exists (run (H := ascii_only_unidecode) (H0 := ascii_unicode) sample_game
            [AddAnswer 1 (py "chou")]), 1%N.
  split; [apply reachable_run, sample_game_reachable|by vm_compute].
Defined.

(** X20. One [GamesStats.update] counts one more game and as many more
    players as the game has; and whenever the number of games is not zero,
    which is when [get_emojis] goes on to divide by it and to join the hidden
    words, some hidden word has been counted. *)
Theorem games_stats_update_counts (s : GamesStats.t) (game : Game.t) :
  GamesStats.num_games (GamesStats.update s game) = GamesStats.num_games s + 1
  ∧ GamesStats.num_players (GamesStats.update s game)
    = GamesStats.num_players s + Z.of_nat (size (Game.players game))
  ∧ Counter.get (GamesStats.hidden_words (GamesStats.update s game))
      (Game.hidden_word game)
    = Counter.get (GamesStats.hidden_words s) (Game.hidden_word game) + 1
  ∧ (GamesStats.num_games s ≠ 0 → GamesStats.hidden_words s ≠ ∅).
Proof.
  unfold GamesStats.num_games. simpl. split; [apply total_add|].
  split; [done|]. split.
  - rewrite get_add. by rewrite decide_True.
  - intros Hn Hempty. by rewrite Hempty in Hn.
Qed.

(** ** The files of the statistics *)

Section stats_files_facts.
Context `{Json} {HJ : JsonLaws}.
Implicit Types (fs : files) (folder f : str) (u v : N).

Lemma player_filename_inj folder u v :
  Stats.get_player_stats_filename folder u
  = Stats.get_player_stats_filename folder v → u = v.
Proof.
  unfold Stats.get_player_stats_filename. intros Heq.
  apply app_inv_head, app_inv_head, app_inv_tail in Heq.
  by apply str_of_int_inj, N2Z.inj in Heq.
Qed.

Lemma player_filename_not_games folder u :
  Stats.get_player_stats_filename folder u
  ≠ Stats.get_games_stats_filename folder.
Proof.
  unfold Stats.get_player_stats_filename, Stats.get_games_stats_filename.
  intros Heq. apply app_inv_head in Heq. simpl in Heq.
  pose proof (str_of_int_chars (Z.of_N u)) as Hc.
  destruct (Text.str_of_int (Z.of_N u)) as [|c rest]; [done|].
  apply Forall_cons in Hc as [Hc _]. simpl in Heq.
  injection Heq as -> _. lia.
Qed.

Lemma player_load_saved fs f (S : PlayerStats.t) :
  fs !! f = PlayerStats.save S f ∅ !! f → PlayerStats.load fs f = Some S.
Proof.
  intros Hf. rewrite <- (player_stats_load_save S f ∅).
  unfold PlayerStats.load. by rewrite Hf.
Qed.

Lemma games_load_saved fs f (S : GamesStats.t) :
  fs !! f = GamesStats.save S f ∅ !! f → GamesStats.load fs f = Some S.
Proof.
  intros Hf. rewrite <- (games_stats_load_save S f ∅).
  unfold GamesStats.load. by rewrite Hf.
Qed.

Lemma save_players_other folder (l : list (N * PlayerStats.t)) fs f :
  (∀ u st, (u, st) ∈ l → Stats.get_player_stats_filename folder u ≠ f) →
  foldl (λ fs' item,
           PlayerStats.save item.2
             (Stats.get_player_stats_filename folder item.1) fs') fs l !! f
  = fs !! f.
Proof.
  revert fs. induction l as [|[u st] l IH]; intros fs Hl; [done|].
  simpl. rewrite IH.
  - unfold PlayerStats.save. rewrite lookup_insert_ne; [done|].
    apply (Hl u st), list_elem_of_here.
  - intros v st' Hin. apply (Hl v st'). by apply list_elem_of_further.
Qed.

Lemma save_players_in folder (l : list (N * PlayerStats.t)) fs u st :
  NoDup l.*1 → (u, st) ∈ l →
  foldl (λ fs' item,
           PlayerStats.save item.2
             (Stats.get_player_stats_filename folder item.1) fs') fs l
    !! Stats.get_player_stats_filename folder u
  = PlayerStats.save st (Stats.get_player_stats_filename folder u) ∅
      !! Stats.get_player_stats_filename folder u.
Proof.
  revert fs. induction l as [|[v st'] l IH]; intros fs Hnd Hin.
  - by apply elem_of_nil in Hin.
  - rewrite fmap_cons in Hnd. apply NoDup_cons in Hnd as [Hv Hnd]. simpl.
    apply elem_of_cons in Hin as [[= <- <-]|Hin]; [|by apply IH].
    rewrite save_players_other.
    + unfold PlayerStats.save. by rewrite !lookup_insert_eq.
    + intros w st'' Hw Heq. apply player_filename_inj in Heq as ->.
      apply Hv, list_elem_of_fmap. by exists (u, st'').
Qed.

Lemma update_players_None fs folder (l : list (N * Player.t)) :
  foldl (Stats.update_player fs folder) None l = None.
Proof. by induction l. Qed.

Lemma update_players_spec fs folder (l : list (N * Player.t)) ps ps' :
  NoDup l.*1 →
  foldl (Stats.update_player fs folder) (Some ps) l = Some ps' →
  (∀ u p, (u, p) ∈ l →
     ∃ st, (ps !! u = Some st
            ∨ (ps !! u = None
               ∧ PlayerStats.load fs (Stats.get_player_stats_filename folder u)
                 = Some st))
           ∧ ps' !! u = Some (PlayerStats.update st p))
  ∧ (∀ u, u ∉ l.*1 → ps' !! u = ps !! u).
Proof.
  revert ps. induction l as [|[v q] l IH]; intros ps Hnd Hfold.
  - simpl in Hfold. injection Hfold as <-. split; [|done].
    intros u p Hin. by apply elem_of_nil in Hin.
  - rewrite fmap_cons in Hnd. apply NoDup_cons in Hnd as [Hv Hnd].
    simpl in Hfold.
    set (loaded := match ps !! v with
                   | Some st => Some st
                   | None => PlayerStats.load fs
                               (Stats.get_player_stats_filename folder v)
                   end) in *.
    destruct loaded as [st|] eqn:Hst; simpl in Hfold;
      [|by rewrite update_players_None in Hfold].
    destruct (IH _ Hnd Hfold) as [Hin Hout]. split.
    + intros u p Hup. apply elem_of_cons in Hup as [[= -> ->]|Hup].
      * exists st. split.
        -- subst loaded. destruct (ps !! v); [left; congruence|by right].
        -- rewrite (Hout v Hv). apply lookup_insert_eq.
      * destruct (Hin u p Hup) as (st' & Hst' & Hu).
        exists st'. split; [|done].
        assert (u ≠ v) as Hne.
        { intros ->. apply Hv, list_elem_of_fmap. by exists (v, p). }
        by rewrite lookup_insert_ne in Hst'.
    + intros u Hu. rewrite fmap_cons in Hu.
      apply not_elem_of_cons in Hu as [Hne Hu].
      rewrite (Hout u Hu). by rewrite lookup_insert_ne.
Qed.

Lemma update_players_succeeds fs folder (l : list (N * Player.t)) ps :
  (∀ u p, (u, p) ∈ l → ps !! u = None →
     is_Some (PlayerStats.load fs (Stats.get_player_stats_filename folder u))) →
  is_Some (foldl (Stats.update_player fs folder) (Some ps) l).
Proof.
  revert ps. induction l as [|[v q] l IH]; intros ps Hl; [by eexists|].
  simpl.
  assert (is_Some (match ps !! v with
                   | Some st => Some st
                   | None => PlayerStats.load fs
                               (Stats.get_player_stats_filename folder v)
                   end)) as [st ->].
  { destruct (ps !! v) eqn:Hv; [by eexists|].
    apply (Hl v q); [apply list_elem_of_here|done]. }
  simpl. apply IH. intros u p Hin Hu.
  apply (Hl u p); [by apply list_elem_of_further|].
  destruct (decide (v = u)) as [->|Hne];
    [by rewrite lookup_insert_eq in Hu|by rewrite lookup_insert_ne in Hu].
Qed.
End stats_files_facts.

(** X21. In one folder, two users have different statistics files, and no
    user has the file of the games: no two statistics share a file. *)
Theorem stats_files_distinct (folder : str) (u v : N) :
  (Stats.get_player_stats_filename folder u
   = Stats.get_player_stats_filename folder v → u = v)
  ∧ Stats.get_player_stats_filename folder u
    ≠ Stats.get_games_stats_filename folder.
Proof.
  split; [apply player_filename_inj|apply player_filename_not_games].
Qed.

(** X22. After [Stats.save], reading the file of the games gives the
    statistics of the games back, reading the file of each user in memory
    gives that user's statistics back, a new [Stats] on the same folder
    starts from the saved statistics of the games with no user in memory,
    and every other file is as it was. *)
Theorem stats_save_load `{Json} (s : Stats.t) (fs : files) :
  JsonLaws →
  let fs' := Stats.save s fs in
  GamesStats.load fs' (Stats.get_games_stats_filename (Stats.folder s))
  = Some (Stats.games_stats s)
  ∧ (∀ u st, Stats.players_stats s !! u = Some st →
       PlayerStats.load fs' (Stats.get_player_stats_filename (Stats.folder s) u)
       = Some st)
  ∧ Stats.init (Stats.folder s) fs'
    = Some {| Stats.folder := Stats.folder s;
              Stats.games_stats := Stats.games_stats s;
              Stats.players_stats := ∅ |}
  ∧ (∀ f, f ≠ Stats.get_games_stats_filename (Stats.folder s) →
       (∀ u, is_Some (Stats.players_stats s !! u) →
             f ≠ Stats.get_player_stats_filename (Stats.folder s) u) →
       fs' !! f = fs !! f).
Proof.
  intros HJ fs'. subst fs'. unfold Stats.save.
  assert (GamesStats.load
            (foldl (λ fs' item,
                      PlayerStats.save item.2
                        (Stats.get_player_stats_filename (Stats.folder s) item.1)
                        fs')
               (GamesStats.save (Stats.games_stats s)
                  (Stats.get_games_stats_filename (Stats.folder s)) fs)
               (map_to_list (Stats.players_stats s)))
            (Stats.get_games_stats_filename (Stats.folder s))
          = Some (Stats.games_stats s)) as Hgames.
  { apply games_load_saved. rewrite save_players_other.
    - unfold GamesStats.save. by rewrite !lookup_insert_eq.
    - intros u st _. apply player_filename_not_games. }
  split; [exact Hgames|]. split; [|split].
  - intros u st Hu. apply player_load_saved, save_players_in.
    + apply NoDup_fst_map_to_list.
    + by apply elem_of_map_to_list.
  - unfold Stats.init. by rewrite Hgames.
  - intros f Hg Hp. rewrite save_players_other.
    + unfold GamesStats.save. by rewrite lookup_insert_ne.
    + intros u st Hin Heq. apply elem_of_map_to_list in Hin.
      by apply (Hp u); [eexists|].
Qed.

Lemma stats_save_load_witness :
  let s := {| Stats.folder := py "stats";
              Stats.games_stats := GamesStats.update GamesStats.init sample_game;
              Stats.players_stats :=
                {[ 7%N := PlayerStats.update PlayerStats.init
                            (Player.init 7 (py "chat")) ]} |} in
  PlayerStats.load (H := tally_json) (Stats.save (H := tally_json) s ∅)
    (py "stats/7.txt")
  = Some (PlayerStats.update PlayerStats.init (Player.init 7 (py "chat")))
  ∧ Stats.save (H := tally_json) s ∅ !! py "stats/8.txt" = None.
Proof.
  intros s.
  destruct (@stats_save_load tally_json s ∅ tally_json_laws)
    as (_ & Hplayer & _ & Hother).
  split.
  - apply (Hplayer 7%N). by vm_compute.
  - rewrite Hother; [done|by vm_compute|].
    intros u [st Hu]. subst s. simpl in Hu.
    apply lookup_singleton_Some in Hu as [<- _]. by vm_compute.
Defined.

(** X23. When [Stats.update] returns, the folder is the same, the statistics
    of the games are updated with the game, each user of the game has
    statistics updated with its player, starting from the ones in memory or,
    when there are none, from the ones its file gives, and the users who are
    not in the game keep theirs. It returns whenever the file of each user of
    the game who is not in memory can be read, a missing file being read as
    the empty statistics. *)
Theorem stats_update_players `{Json} (s s' : Stats.t) (game : Game.t)
    (fs : files) :
  (Stats.update s game fs = Some s' →
     Stats.folder s' = Stats.folder s
     ∧ Stats.games_stats s' = GamesStats.update (Stats.games_stats s) game
     ∧ (∀ u p, Game.players game !! u = Some p →
          ∃ st, (Stats.players_stats s !! u = Some st
                 ∨ (Stats.players_stats s !! u = None
                    ∧ PlayerStats.load fs
                        (Stats.get_player_stats_filename (Stats.folder s) u)
                      = Some st))
                ∧ Stats.players_stats s' !! u = Some (PlayerStats.update st p))
     ∧ (∀ u, Game.players game !! u = None →
          Stats.players_stats s' !! u = Stats.players_stats s !! u))
  ∧ ((∀ u, is_Some (Game.players game !! u) →
           Stats.players_stats s !! u = None →
           is_Some (PlayerStats.load fs
                      (Stats.get_player_stats_filename (Stats.folder s) u))) →
     is_Some (Stats.update s game fs))
  ∧ (∀ u, fs !! Stats.get_player_stats_filename (Stats.folder s) u = None →
          PlayerStats.load fs (Stats.get_player_stats_filename (Stats.folder s) u)
          = Some PlayerStats.init).
Proof.
  unfold Stats.update. split; [|split].
  - destruct (foldl _ _ _) as [ps'|] eqn:Hfold; [|done]. simpl.
    intros [= <-]. simpl. split; [done|]. split; [done|].
    destruct (update_players_spec _ _ _ _ _
                (NoDup_fst_map_to_list (Game.players game)) Hfold)
      as [Hin Hout].
    split.
    + intros u p Hu. apply Hin. by apply elem_of_map_to_list.
    + intros u Hu. apply Hout. intros Hfst.
      apply list_elem_of_fmap in Hfst as ([v p] & -> & Hvp).
      apply elem_of_map_to_list in Hvp. simpl in Hu. congruence.
  - intros Hload.
    destruct (update_players_succeeds fs (Stats.folder s)
                (map_to_list (Game.players game)) (Stats.players_stats s))
      as [ps' ->]; [|by eexists].
    intros u p Hin. apply elem_of_map_to_list in Hin. apply Hload. by eexists.
  - intros u Hu. unfold PlayerStats.load. by rewrite Hu.
Qed.

Lemma stats_update_players_witness :
  is_Some (Stats.update (H := tally_json)
             {| Stats.folder := py "stats";
                Stats.games_stats := GamesStats.init;
                Stats.players_stats := ∅ |} sample_game ∅).
Proof.
  eapply (proj1 (proj2 (@stats_update_players tally_json _
                          {| Stats.folder := py "stats";
                             Stats.games_stats := GamesStats.init;
                             Stats.players_stats := ∅ |} sample_game ∅))).
  intros u _ _. by eexists.
Defined.

(** ** The emojis *)

Section emoji_facts.
Implicit Types (c : N) (rank : Z).

Lemma digit_cases c :
  (48 ≤ c ≤ 57)%N →
  c ∈ [48; 49; 50; 51; 52; 53; 54; 55; 56; 57]%N.
Proof.
  intros Hc.
  assert (c = 48 ∨ c = 49 ∨ c = 50 ∨ c = 51 ∨ c = 52 ∨ c = 53 ∨ c = 54
          ∨ c = 55 ∨ c = 56 ∨ c = 57)%N as Hcases by lia.
  rewrite !elem_of_cons. tauto.
Qed.

Lemma digit_emoji_Some c :
  (48 ≤ c ≤ 57)%N →
  digit_emoji c = digits !! N.to_nat (c - 48).
Proof.
  intros Hc. apply digit_cases in Hc.
  repeat (apply elem_of_cons in Hc as [->|Hc]; [by vm_compute|]).
  by apply elem_of_nil in Hc.
Qed.

Lemma str_of_int_digits rank :
  0 ≤ rank → Forall (λ c, (48 ≤ c ≤ 57)%N) (Text.str_of_int rank).
Proof.
  intros Hr. unfold Text.str_of_int. destruct rank as [|p|p]; [| |lia].
  - repeat constructor; simpl; lia.
  - simpl. pose proof (DecimalPos.Unsigned.to_uint_nonnil p) as Hp.
    destruct (Pos.to_uint p) as [|d|d|d|d|d|d|d|d|d|d]; [done|..];
      match goal with
      | |- Forall _ (py (NilZero.string_of_uint ?u)) =>
          exact (digits_of_uint u)
      end.
Qed.

Lemma str_of_int_not_nil rank : Text.str_of_int rank ≠ [].
Proof.
  intros Hnil. pose proof (proj1 (int_of_str_of_int rank)) as Hp.
  by rewrite Hnil in Hp.
Qed.

Lemma mapM_digit_emoji (cs : str) :
  Forall (λ c, (48 ≤ c ≤ 57)%N) cs →
  mapM digit_emoji cs = Some (digit_name_of <$> cs).
Proof.
  intros Hcs. apply mapM_fmap_elem_of. intros c Hc.
  rewrite Forall_forall in Hcs. specialize (Hcs c Hc).
  rewrite digit_emoji_Some by done. unfold digit_name_of.
  apply digit_cases in Hcs.
  repeat (apply elem_of_cons in Hcs as [->|Hcs]; [done|]).
  by apply elem_of_nil in Hcs.
Qed.

Lemma digit_name_prefix c1 c2 (X Y : str) :
  (48 ≤ c1 ≤ 57)%N → (48 ≤ c2 ≤ 57)%N →
  digit_name_of c1 ++ X = digit_name_of c2 ++ Y → c1 = c2 ∧ X = Y.
Proof.
  intros H1 H2. apply digit_cases in H1, H2.
  repeat (apply elem_of_cons in H1 as [->|H1];
          [repeat (apply elem_of_cons in H2 as [->|H2];
                   [vm_compute; intros Heq; by simplify_eq|]);
           by apply elem_of_nil in H2|]).
  by apply elem_of_nil in H1.
Qed.

Lemma digit_names_inj (cs1 cs2 : str) :
  Forall (λ c, (48 ≤ c ≤ 57)%N) cs1 → Forall (λ c, (48 ≤ c ≤ 57)%N) cs2 →
  concat (digit_name_of <$> cs1) = concat (digit_name_of <$> cs2) → cs1 = cs2.
Proof.
  intros H1. revert cs2. induction H1 as [|c1 cs1 Hc1 H1 IH];
    intros cs2 H2 Heq; destruct H2 as [|c2 cs2 Hc2 H2]; try done.
  - exfalso. simpl in Heq. apply digit_cases in Hc2.
    repeat (apply elem_of_cons in Hc2 as [->|Hc2]; [by vm_compute in Heq|]).
    by apply elem_of_nil in Hc2.
  - exfalso. simpl in Heq. apply digit_cases in Hc1.
    repeat (apply elem_of_cons in Hc1 as [->|Hc1]; [by vm_compute in Heq|]).
    by apply elem_of_nil in Hc1.
  - rewrite !fmap_cons in Heq. simpl in Heq.
    apply digit_name_prefix in Heq as [-> Heq]; [|done..].
    f_equal. by apply IH.
Qed.

Lemma medal_not_digits (medal : str) (cs : str) :
  medal ∈ [py ":first_place:"; py ":second_place:"; py ":third_place:"] →
  Forall (λ c, (48 ≤ c ≤ 57)%N) cs → cs ≠ [] →
  medal ≠ concat (digit_name_of <$> cs).
Proof.
  intros Hm Hcs Hne Heq. destruct Hcs as [|c cs Hc _]; [done|].
  rewrite fmap_cons in Heq. simpl in Heq. apply digit_cases in Hc.
  repeat (apply elem_of_cons in Hm as [->|Hm];
          [repeat (apply elem_of_cons in Hc as [->|Hc];
                   [by vm_compute in Heq|]);
           by apply elem_of_nil in Hc|]).
  by apply elem_of_nil in Hm.
Qed.

Lemma rank_to_emojis_digits rank :
  4 ≤ rank →
  rank_to_emojis rank
  = Some (concat (digit_name_of <$> Text.str_of_int rank)).
Proof.
  intros Hr. unfold rank_to_emojis. rewrite !decide_False by lia.
  by rewrite mapM_digit_emoji by (apply str_of_int_digits; lia).
Qed.

Lemma type_to_emojis_prefix (a b : LetterType) (X Y : str) :
  type_to_emojis a ++ X = type_to_emojis b ++ Y → a = b ∧ X = Y.
Proof. destruct a, b; vm_compute; intros Heq; by simplify_eq. Qed.

Lemma types_to_emojis_inj_aux (l1 l2 : list LetterType) :
  str_join (py " ") (type_to_emojis <$> l1)
  = str_join (py " ") (type_to_emojis <$> l2) → l1 = l2.
Proof.
  revert l2. induction l1 as [|a l1 IH]; intros [|b l2] Heq; try done.
  - exfalso. destruct l2 as [|b' l2]; destruct b; by vm_compute in Heq.
  - exfalso. destruct l1 as [|a' l1]; destruct a; by vm_compute in Heq.
  - destruct l1 as [|a' l1], l2 as [|b' l2]; rewrite ?fmap_cons in Heq.
    + simpl in Heq. rewrite <- (app_nil_r (type_to_emojis a)) in Heq.
      rewrite <- (app_nil_r (type_to_emojis b)) in Heq.
      by apply type_to_emojis_prefix in Heq as [-> _].
    + exfalso.
      rewrite (str_join_cons _ (type_to_emojis b)) in Heq by done.
      simpl (str_join _ [_]) in Heq.
      rewrite <- (app_nil_r (type_to_emojis a)) in Heq.
      by apply type_to_emojis_prefix in Heq as [_ Heq].
    + exfalso.
      rewrite (str_join_cons _ (type_to_emojis a)) in Heq by done.
      simpl (str_join _ [_]) in Heq.
      rewrite <- (app_nil_r (type_to_emojis b)) in Heq.
      by apply type_to_emojis_prefix in Heq as [_ Heq].
    + rewrite (str_join_cons _ (type_to_emojis a)),
        (str_join_cons _ (type_to_emojis b)) in Heq by done.
      apply type_to_emojis_prefix in Heq as [-> Heq].
      simpl in Heq. injection Heq as Heq.
      f_equal. apply IH. by rewrite !fmap_cons.
Qed.
End emoji_facts.

(** X24. [rank_to_emojis] returns an emoji text for every rank: the same one
    for every rank below 1, and, from rank 1 on, different texts for
    different ranks. *)
Theorem rank_to_emojis_distinct :
  (∀ rank, ∃ e, rank_to_emojis rank = Some e ∧ e ≠ [])
  ∧ (∀ rank, rank < 1 → rank_to_emojis rank = Some (py ":interrobang:"))
  ∧ (∀ r1 r2, 1 ≤ r1 → 1 ≤ r2 →
       rank_to_emojis r1 = rank_to_emojis r2 → r1 = r2).
Proof.
  assert (∀ rank, 4 ≤ rank →
            Forall (λ c, (48 ≤ c ≤ 57)%N) (Text.str_of_int rank)) as Hd
    by (intros; apply str_of_int_digits; lia).
  split; [|split].
  - intros rank. destruct (decide (4 ≤ rank)) as [Hr|Hr].
    + rewrite rank_to_emojis_digits by done. eexists. split; [done|].
      pose proof (Hd rank Hr) as Hc.
      destruct (Text.str_of_int rank) as [|c cs] eqn:Hs;
        [by apply str_of_int_not_nil in Hs|].
      apply Forall_cons in Hc as [Hc _]. rewrite fmap_cons. simpl.
      apply digit_cases in Hc.
      repeat (apply elem_of_cons in Hc as [->|Hc]; [by vm_compute|]).
      by apply elem_of_nil in Hc.
    + unfold rank_to_emojis. repeat case_decide; try lia; by eexists.
  - intros rank Hr. unfold rank_to_emojis. by rewrite decide_True.
  - intros r1 r2 H1 H2.
    destruct (decide (4 ≤ r1)) as [Hr1|Hr1], (decide (4 ≤ r2)) as [Hr2|Hr2].
    + rewrite !rank_to_emojis_digits by done. intros [= Heq].
      apply str_of_int_inj, digit_names_inj; [by apply Hd..|done].
    + rewrite (rank_to_emojis_digits r1) by done. unfold rank_to_emojis.
      repeat case_decide; try lia; intros [= Heq]; symmetry in Heq;
        exfalso; revert Heq;
        (apply medal_not_digits;
         [rewrite !elem_of_cons; tauto|by apply Hd|apply str_of_int_not_nil]).
    + rewrite (rank_to_emojis_digits r2) by done. unfold rank_to_emojis.
      repeat case_decide; try lia; intros [= Heq];
        exfalso; revert Heq;
        (apply medal_not_digits;
         [rewrite !elem_of_cons; tauto|by apply Hd|apply str_of_int_not_nil]).
    + unfold rank_to_emojis. repeat case_decide; try lia; by intros [=].
Qed.

Lemma rank_to_emojis_distinct_witness :
  rank_to_emojis 12 = Some (py ":one::two:")
  ∧ rank_to_emojis 12 ≠ rank_to_emojis 21.
Proof.
  split; [by vm_compute|].
  intros Heq.
  by apply (proj2 (proj2 rank_to_emojis_distinct) 12 21) in Heq.
Defined.

(** X25. [types_to_emojis] gives different texts to different sequences of
    classifications: the row of squares shows how each letter was
    classified. *)
Theorem types_to_emojis_inj (types1 types2 : list LetterType) :
  types_to_emojis types1 = types_to_emojis types2 → types1 = types2.
Proof. apply types_to_emojis_inj_aux. Qed.

Lemma types_to_emojis_inj_witness :
  types_to_emojis [FOUND; WRONG]
  = py ":red_square: :blue_square:"
  ∧ (types_to_emojis [FOUND; WRONG] = types_to_emojis [FOUND; WRONG] →
     [FOUND; WRONG] = [FOUND; WRONG]).
Proof.
  split; [by vm_compute|]. apply (types_to_emojis_inj [FOUND; WRONG]).
Defined.

(** ** The ranking, rank by rank *)

Section finishers_facts.
Context `{Unidecode, Unicode}.
Implicit Types (g : Game.t) (p q : Player.t).

Lemma sorted_ranks g (l : list Player.t) :
  StronglySorted (Game.key_le g) l →
  StronglySorted Z.le (filter (λ r, 0 < r) (Player.rank <$> l)).
Proof.
  induction 1 as [|p l Hl IH Hp]; [constructor|].
  rewrite fmap_cons, filter_cons. case_decide as Hr; [|done].
  constructor; [done|]. apply Forall_forall. intros r Hin.
  apply list_elem_of_filter in Hin as [Hpos Hin].
  apply list_elem_of_fmap in Hin as (q & -> & Hq).
  rewrite Forall_forall in Hp. specialize (Hp q Hq).
  unfold Game.key_le, Game.sort_key in Hp.
  by rewrite !decide_True in Hp by lia.
Qed.

Lemma sorted_seqZ m n : StronglySorted Z.le (seqZ m n).
Proof.
  remember (Z.to_nat n) as k eqn:Hk. revert m n Hk.
  induction k as [|k IH]; intros m n Hk.
  - rewrite seqZ_nil by lia. constructor.
  - rewrite seqZ_cons by lia. constructor; [apply IH; lia|].
    apply Forall_forall. intros x Hx. apply elem_of_seqZ in Hx. lia.
Qed.

Lemma ranks_no_dup g (l : list (N * Player.t)) :
  ranks_consistent g → NoDup l.*1 →
  (∀ u p, (u, p) ∈ l → Game.players g !! u = Some p) →
  NoDup (filter (λ r, 0 < r) (Player.rank <$> l.*2)).
Proof.
  intros Hg. induction l as [|[u p] l IH]; intros Hnd Hl; [constructor|].
  rewrite fmap_cons in Hnd. apply NoDup_cons in Hnd as [Hu Hnd].
  rewrite !fmap_cons, filter_cons. simpl.
  assert (NoDup (filter (λ r, 0 < r) (Player.rank <$> l.*2))) as Hrest.
  { apply IH; [done|]. intros v q Hin. apply Hl. by apply list_elem_of_further. }
  case_decide as Hr; [|done]. constructor; [|done].
  intros Hin. apply list_elem_of_filter in Hin as [_ Hin].
  apply list_elem_of_fmap in Hin as (q & Hq & Hin).
  apply list_elem_of_fmap in Hin as ([v q'] & -> & Hin). simpl in Hq.
  assert (u = v) as ->.
  { apply (rank_unique g Hg u v p q'); [|by apply Hl, list_elem_of_further|done|lia].
    apply Hl, list_elem_of_here. }
  apply Hu, list_elem_of_fmap. by exists (v, q').
Qed.

Lemma finishers_sorted g :
  reachable g →
  filter (λ r, 0 < r) (Player.rank <$> Game.get_sorted_players g)
  = seqZ 1 (Game.next_rank g - 1).
Proof.
  intros Hreach. pose proof (reachable_consistent g Hreach) as Hg.
  apply (Sorted_unique Z.le).
  - apply StronglySorted_Sorted, (sorted_ranks g).
    apply StronglySorted_merge_sort; apply _.
  - apply StronglySorted_Sorted, sorted_seqZ.
  - assert (filter (λ r, 0 < r) (Player.rank <$> Game.get_sorted_players g)
            ≡ₚ filter (λ r, 0 < r)
                 (Player.rank <$> (map_to_list (Game.players g)).*2)) as Hperm.
    { unfold Game.get_sorted_players. by rewrite merge_sort_Permutation. }
    rewrite Hperm. apply NoDup_Permutation.
    + apply (ranks_no_dup g); [done|apply NoDup_fst_map_to_list|].
      intros u p Hin. by apply elem_of_map_to_list.
    + apply NoDup_seqZ.
    + intros r. rewrite list_elem_of_filter, elem_of_seqZ. split.
      * intros [Hpos Hin]. apply list_elem_of_fmap in Hin as (p & -> & Hin).
        apply list_elem_of_fmap in Hin as ([u p'] & -> & Hin).
        apply elem_of_map_to_list in Hin. simpl in *.
        destruct (rank_range g Hg u p' Hin) as [?|[? _]]; lia.
      * intros Hr. destruct (rank_held g Hg r ltac:(lia)) as (u & p & Hu & <-).
        split; [lia|]. apply list_elem_of_fmap. exists p. split; [done|].
        apply list_elem_of_fmap. exists (u, p). split; [done|].
        by apply elem_of_map_to_list.
Qed.
End finishers_facts.

(** X26. In every state of a session, the ranked players come out of
    [get_sorted_players] in the order they finished: their ranks, read along
    the list, are 1, 2, 3, ... up to [next_rank - 1], each once. *)
Theorem finishers_in_order `{Unidecode, Unicode} (g : Game.t) :
  reachable g →
  filter (λ r, 0 < r) (Player.rank <$> Game.get_sorted_players g)
  = seqZ 1 (Game.next_rank g - 1).
Proof. apply finishers_sorted. Qed.

Lemma finishers_in_order_witness :
  let g := run (H := ascii_only_unidecode) (H0 := ascii_unicode) sample_game
             [AddPlayer 3; AddAnswer 3 (py "chat"); AddAnswer 1 (py "chat")] in
  filter (λ r, 0 < r) (Player.rank <$> Game.get_sorted_players g) = [1; 2].
Proof.
  intros g.
  rewrite (@finishers_in_order ascii_only_unidecode ascii_unicode g)
    by apply reachable_run, sample_game_reachable.
  by vm_compute.
Defined.
